(** * A proof-of-work ledger: [Backend/simple_blockchain.py]

    A shallow embedding of the [Blockchain] class (block linking, hashing,
    proof of work, longest-chain conflict resolution) and the properties
    its design document states about it. *)

From Stdlib Require Import ZArith NArith Lia String Ascii.
From stdpp Require Import base option list sorting lexico gmap.

(** ** Python values *)

(** A Python [str] is a sequence of Unicode code points; [bytes] is a
    sequence of octets.  Both are lists of numbers here. *)
Abbreviation pystr := (list N) (only parsing).
Abbreviation bytes := (list N) (only parsing).

(** The exceptions the modelled code can raise.  [Unmodelled] marks the two
    behaviours this embedding does not compute: [str()] of a list or dict
    (its escaping depends on the interpreter's Unicode tables) and float
    addition. *)
Inductive exn :=
  | IndexError
  | KeyError
  | TypeError
  | UnicodeEncodeError
  | Unmodelled.

Inductive result (A : Type) :=
  | Ok (a : A)
  | Raise (e : exn).
Arguments Ok {A} a.
Arguments Raise {A} e.

#[global] Instance result_ret : MRet result := @Ok.
#[global] Instance result_bind : MBind result := λ A B f r,
  match r with
  | Ok a => f a
  | Raise e => Raise e
  end.

(** ** hashlib.sha256 (FIPS 180-4) *)

Module SHA256.
Local Open Scope N_scope.

Definition w32 (x : N) : N := N.land x 0xFFFFFFFF.
Definition add32 (x y : N) : N := w32 (x + y).
Definition rotr (n x : N) : N := N.lor (N.shiftr x n) (w32 (N.shiftl x (32 - n))).
Definition not32 (x : N) : N := N.lxor x 0xFFFFFFFF.

Definition Ch (x y z : N) : N := N.lxor (N.land x y) (N.land (not32 x) z).
Definition Maj (x y z : N) : N :=
  N.lxor (N.lxor (N.land x y) (N.land x z)) (N.land y z).
Definition bigsigma0 (x : N) : N := N.lxor (N.lxor (rotr 2 x) (rotr 13 x)) (rotr 22 x).
Definition bigsigma1 (x : N) : N := N.lxor (N.lxor (rotr 6 x) (rotr 11 x)) (rotr 25 x).
Definition smallsigma0 (x : N) : N := N.lxor (N.lxor (rotr 7 x) (rotr 18 x)) (N.shiftr x 3).
Definition smallsigma1 (x : N) : N := N.lxor (N.lxor (rotr 17 x) (rotr 19 x)) (N.shiftr x 10).

(** The round constants are the first 32 bits of the fractional parts of
    the cube roots of the first 64 primes; the initial state comes from
    the square roots of the first 8. *)
Definition primes : list N :=
  [2; 3; 5; 7; 11; 13; 17; 19; 23; 29; 31; 37; 41; 43; 47; 53;
   59; 61; 67; 71; 73; 79; 83; 89; 97; 101; 103; 107; 109; 113; 127; 131;
   137; 139; 149; 151; 157; 163; 167; 173; 179; 181; 191; 193; 197; 199; 211; 223;
   227; 229; 233; 239; 241; 251; 257; 263; 269; 271; 277; 281; 283; 293; 307; 311].

(** Largest [r] below [2^bits] with [r^3 <= x], one bit at a time. *)
Fixpoint cube_root (bits : nat) (x r : N) : N :=
  match bits with
  | O => r
  | S b =>
      let r' := N.lor r (N.shiftl 1 (N.of_nat b)) in
      cube_root b x (if r' * r' * r' <=? x then r' else r)
  end.

Definition K : list N :=
  Eval vm_compute in
    map (λ p, w32 (cube_root 35 (p * 2 ^ 96) 0)) primes.

Definition H0 : list N :=
  Eval vm_compute in
    map (λ p, w32 (N.sqrt (p * 2 ^ 64))) (take 8 primes).

(** Padding: a 1 bit, zeros up to 56 mod 64 bytes, then the bit length
    as a 64-bit big-endian number. *)
Fixpoint be_bytes (n : nat) (x : N) : bytes :=
  match n with
  | O => []
  | S n' => N.land (N.shiftr x (8 * N.of_nat n')) 0xFF :: be_bytes n' x
  end.

Definition pad (msg : bytes) : bytes :=
  let len := N.of_nat (length msg) in
  let zeros := Z.to_nat ((55 - Z.of_N len) mod 64)%Z in
  msg ++ [0x80] ++ replicate zeros 0 ++ be_bytes 8 (8 * len).

Fixpoint be_words (fuel : nat) (bs : bytes) : list N :=
  match fuel, bs with
  | S f, b0 :: b1 :: b2 :: b3 :: rest =>
      (N.shiftl b0 24 + N.shiftl b1 16 + N.shiftl b2 8 + b3) :: be_words f rest
  | _, _ => []
  end.

(** The message schedule, most recent word first: from [W(t-1) .. W(t-16)]
    at the head, the next word is pushed in front. *)
Fixpoint schedule (n : nat) (rev_w : list N) : list N :=
  match n with
  | O => rev_w
  | S n' =>
      let at_ i := nth i rev_w 0 in
      let wt := add32 (add32 (smallsigma1 (at_ 1%nat)) (at_ 6%nat))
                      (add32 (smallsigma0 (at_ 14%nat)) (at_ 15%nat)) in
      schedule n' (wt :: rev_w)
  end.

Record state := State { sa : N; sb : N; sc : N; sd : N; se : N; sf : N; sg : N; sh : N }.

Definition round (s : state) (kw : N * N) : state :=
  let t1 := add32 (add32 (add32 (sh s) (bigsigma1 (se s))) (Ch (se s) (sf s) (sg s)))
                  (add32 (fst kw) (snd kw)) in
  let t2 := add32 (bigsigma0 (sa s)) (Maj (sa s) (sb s) (sc s)) in
  State (add32 t1 t2) (sa s) (sb s) (sc s) (add32 (sd s) t1) (se s) (sf s) (sg s).

Definition compress (s : state) (block : list N) : state :=
  let w := rev (schedule 48 (rev block)) in
  let s' := fold_left round (zip K w) s in
  State (add32 (sa s) (sa s')) (add32 (sb s) (sb s')) (add32 (sc s) (sc s'))
        (add32 (sd s) (sd s')) (add32 (se s) (se s')) (add32 (sf s) (sf s'))
        (add32 (sg s) (sg s')) (add32 (sh s) (sh s')).

Fixpoint blocks (fuel : nat) (ws : list N) : list (list N) :=
  match fuel, ws with
  | S f, _ :: _ => take 16 ws :: blocks f (drop 16 ws)
  | _, _ => []
  end.

Definition init : state :=
  match H0 with
  | [a; b; c; d; e; f; g; h] => State a b c d e f g h
  | _ => State 0 0 0 0 0 0 0 0
  end.

Definition digest_words (msg : bytes) : list N :=
  let p := pad msg in
  let ws := be_words (length p) p in
  let s := fold_left compress (blocks (length ws) ws) init in
  [sa s; sb s; sc s; sd s; se s; sf s; sg s; sh s].

Definition hex_digit (d : N) : N := if d <? 10 then 48 + d else 87 + d.

Fixpoint hex (n : nat) (x : N) : pystr :=
  match n with
  | O => []
  | S n' => hex_digit (N.land (N.shiftr x (4 * N.of_nat n')) 0xF) :: hex n' x
  end.

(** [hashlib.sha256(msg).hexdigest()] *)
Definition hexdigest (msg : bytes) : pystr :=
  concat (map (hex 8) (digest_words msg)).
End SHA256.

(** ** Text *)

(** A literal of the source, as the code points of its characters. *)
Definition py (s : string) : pystr :=
  map N_of_ascii (list_ascii_of_string s).

(** [sep.join(parts)] *)
Fixpoint join (sep : pystr) (parts : list pystr) : pystr :=
  match parts with
  | [] => []
  | [p] => p
  | p :: rest => p ++ sep ++ join sep rest
  end.

(** Comparison of two [str]: lexicographic on code points. *)
Fixpoint str_ltb (s t : pystr) : bool :=
  match s, t with
  | _, [] => false
  | [], _ :: _ => true
  | a :: s', b :: t' => (a <? b)%N || ((a =? b)%N && str_ltb s' t')
  end.

Definition str_eqb (s t : pystr) : bool := bool_decide (s = t).

(** Decimal digits of a natural number, most significant first. *)
Fixpoint digits_aux (fuel : nat) (n : N) (acc : pystr) : pystr :=
  match fuel with
  | O => acc
  | S f =>
      let acc' := (48 + n mod 10)%N :: acc in
      if (n <? 10)%N then acc' else digits_aux f (n / 10)%N acc'
  end.

Definition digits (n : N) : pystr := digits_aux (S (N.size_nat n)) n [].

(** The number a string of decimal digits denotes. *)
Definition decimal_value (s : list N) : N :=
  foldl (λ a c, 10 * a + (c - 48))%N 0%N s.

(** [str(z)] for an [int] *)
Definition int_str (z : Z) : pystr :=
  if (z <? 0)%Z then 45%N :: digits (Z.to_N (- z)) else digits (Z.to_N z).

(** [s.encode()]: UTF-8, which refuses surrogates (and numbers beyond the
    last code point, which no [str] holds). *)
Definition encode_char (c : N) : result bytes :=
  if (c <? 0x80)%N then Ok [c]
  else if (c <? 0x800)%N then
    Ok [N.lor 0xC0 (N.shiftr c 6); N.lor 0x80 (N.land c 0x3F)]
  else if (c <? 0x10000)%N then
    if ((0xD800 <=? c) && (c <=? 0xDFFF))%N then Raise UnicodeEncodeError
    else Ok [N.lor 0xE0 (N.shiftr c 12);
             N.lor 0x80 (N.land (N.shiftr c 6) 0x3F);
             N.lor 0x80 (N.land c 0x3F)]
  else if (c <? 0x110000)%N then
    Ok [N.lor 0xF0 (N.shiftr c 18);
        N.lor 0x80 (N.land (N.shiftr c 12) 0x3F);
        N.lor 0x80 (N.land (N.shiftr c 6) 0x3F);
        N.lor 0x80 (N.land c 0x3F)]
  else Raise UnicodeEncodeError.

Fixpoint encode (s : pystr) : result bytes :=
  match s with
  | [] => Ok []
  | c :: s' =>
      b ← encode_char c;
      bs ← encode s';
      Ok (b ++ bs)
  end.

(** Text that [encode] maps to itself. *)
Definition ascii_only (s : list N) : Prop := Forall (λ c, (c < 128)%N) s.

(** ** Floats *)

(** Nothing here computes with floats: the ledger stores the clock reading
    and prints it.  A finite float is held as the shortest decimal that
    round-trips, [(-1)^neg * m * 10^e] with [m] not ending in 0, which is
    what [repr] prints. *)
Inductive float :=
  | FNan
  | FInf (neg : bool)
  | FNum (neg : bool) (m : N) (e : Z).

(** [repr(x)] of a finite float: exponent form when the decimal point falls
    outside [-4 < decpt <= 16]. *)
Definition float_finite_repr (neg : bool) (m : N) (e : Z) : pystr :=
  let ds := digits m in
  let n := Z.of_nat (length ds) in
  let decpt := (n + e)%Z in
  let sign := if neg then py "-" else [] in
  let body :=
    if ((decpt <=? -4) || (16 <? decpt))%Z then
      let x := (decpt - 1)%Z in
      let xs := digits (Z.to_N (Z.abs x)) in
      take 1 ds ++ (if (1 <? n)%Z then py "." ++ drop 1 ds else [])
        ++ py "e" ++ (if (x <? 0)%Z then py "-" else py "+")
        ++ (if (length xs <? 2)%nat then py "0" ++ xs else xs)
    else if (decpt <=? 0)%Z then
      py "0." ++ replicate (Z.to_nat (- decpt)) 48%N ++ ds
    else if (n <=? decpt)%Z then
      ds ++ replicate (Z.to_nat (decpt - n)) 48%N ++ py ".0"
    else
      take (Z.to_nat decpt) ds ++ py "." ++ drop (Z.to_nat decpt) ds in
  sign ++ body.

Definition float_repr (x : float) : pystr :=
  match x with
  | FNan => py "nan"
  | FInf neg => if neg then py "-inf" else py "inf"
  | FNum neg m e => float_finite_repr neg m e
  end.

(** ** JSON-shaped values: what [resp.json()] yields and [json.dumps] takes *)

#[warnings="-register-all"] Inductive json :=
  | JNull
  | JBool (b : bool)
  | JInt (z : Z)
  | JFloat (x : float)
  | JStr (s : pystr)
  | JList (l : list json)
  | JDict (d : list (pystr * json)).

(** A [dict] with [str] keys, in insertion order.  Python keeps one entry
    per key; [dict_ok] says so. *)
Abbreviation dict := (list (list N * json)) (only parsing).

Definition dict_ok (d : dict) : Prop := NoDup (d.*1).

(** [d.get(k)]: the entry under a key, if any. *)
Fixpoint dict_get {V : Type} (d : list (pystr * V)) (k : pystr) : option V :=
  match d with
  | [] => None
  | kv :: d' => if str_eqb kv.1 k then Some kv.2 else dict_get d' k
  end.

(** [d[k]] *)
Definition getitem (d : dict) (k : pystr) : result json :=
  match dict_get d k with
  | Some v => Ok v
  | None => Raise KeyError
  end.

(** [k in d] *)
Definition contains (d : dict) (k : pystr) : bool :=
  match dict_get d k with
  | Some _ => true
  | None => false
  end.

(** *** json.dumps(v, sort_keys=True) *)

Definition hex4 (c : N) : pystr := SHA256.hex 4 c.

(** One character of a string literal, with [ensure_ascii]. *)
Definition escape_char (c : N) : pystr :=
  if (c =? 34)%N then [92; 34]%N
  else if (c =? 92)%N then py "\\"
  else if (c =? 10)%N then py "\n"
  else if (c =? 13)%N then py "\r"
  else if (c =? 9)%N then py "\t"
  else if (c =? 8)%N then py "\b"
  else if (c =? 12)%N then py "\f"
  else if ((32 <=? c) && (c <=? 126))%N then [c]
  else if (c <? 0x10000)%N then py "\u" ++ hex4 c
  else
    let n := (c - 0x10000)%N in
    py "\u" ++ hex4 (N.lor 0xD800 (N.land (N.shiftr n 10) 0x3FF))
      ++ py "\u" ++ hex4 (N.lor 0xDC00 (N.land n 0x3FF)).

Definition dumps_str (s : pystr) : pystr :=
  [34%N] ++ concat (map escape_char s) ++ [34%N].

Definition dumps_float (x : float) : pystr :=
  match x with
  | FNan => py "NaN"
  | FInf neg => if neg then py "-Infinity" else py "Infinity"
  | FNum _ _ _ => float_repr x
  end.

(** [sorted(items)]: the entries in ascending key order.  An insertion
    sort, stable as Python's is; with one entry per key the order of the
    result does not depend on the algorithm. *)
Fixpoint insert_item {V : Type} (kv : pystr * V) (l : list (pystr * V))
  : list (pystr * V) :=
  match l with
  | [] => [kv]
  | kv' :: l' =>
      if str_ltb kv'.1 kv.1 then kv' :: insert_item kv l' else kv :: l
  end.

Definition sorted_items {V : Type} (l : list (pystr * V)) : list (pystr * V) :=
  foldr insert_item [] l.

Definition dumps_item (kv : pystr * pystr) : pystr :=
  dumps_str kv.1 ++ py ": " ++ kv.2.

(** The encoder recurses into the values and lays the entries out in key
    order; [dumps_dict] below restates the dict case in the order the
    library does it (sort the items, then encode each). *)
Fixpoint dumps (v : json) : pystr :=
  match v with
  | JNull => py "null"
  | JBool b => if b then py "true" else py "false"
  | JInt z => int_str z
  | JFloat x => dumps_float x
  | JStr s => dumps_str s
  | JList l => py "[" ++ join (py ", ") (map dumps l) ++ py "]"
  | JDict d =>
      py "{"
        ++ join (py ", ")
             (map dumps_item (sorted_items (map (λ kv, (kv.1, dumps kv.2)) d)))
        ++ py "}"
  end.

(** ** The configuration *)

(** Number of leading zeros required in the proof-of-work hash (in hex). *)
Definition DIFFICULTY : nat := 4.

(** ** Blockchain.hash *)

(** [json.dumps(block, sort_keys=True).encode()] then SHA-256.  The dump is
    ASCII, so [encode] cannot fail on it ([encode_dumps] below). *)
Definition hash (block : dict) : pystr :=
  match encode (dumps (JDict block)) with
  | Ok block_string => SHA256.hexdigest block_string
  | Raise _ => []
  end.

(** ** Blockchain.valid_proof *)

(** [f'{v}'] *)
Definition format (v : json) : result pystr :=
  match v with
  | JNull => Ok (py "None")
  | JBool b => Ok (if b then py "True" else py "False")
  | JInt z => Ok (int_str z)
  | JFloat x => Ok (float_repr x)
  | JStr s => Ok s
  | JList _ | JDict _ => Raise Unmodelled
  end.

Definition valid_proof (last_proof proof last_hash : json) (target : option pystr)
  : result bool :=
  let target := default (replicate DIFFICULTY 48%N) target in
  s1 ← format last_proof;
  s2 ← format proof;
  s3 ← format last_hash;
  guess ← encode (s1 ++ s2 ++ s3);
  let guess_hash := SHA256.hexdigest guess in
  Ok (str_eqb (take (length target) guess_hash) target).


(** ** The ledger *)

(** A transaction list is a mutable object: [new_block] stores the very
    list the pool points to in the block it forges, and [new_transaction]
    appends in place.  [heap] holds every list that has served as
    [self.current_transactions], by address; nothing else is shared. *)
Abbreviation addr := nat (only parsing).

(** What [self.chain] holds: a dict forged by [new_block], whose
    ['transactions'] entry is the list object at an address, or a dict
    fetched from a peer, which is plain data. *)
Inductive block :=
  | Forged (index : Z) (timestamp : float) (transactions : addr)
           (proof : Z) (previous_hash : pystr)
  | Fetched (d : dict).

(** The peer set [self.nodes] is not part of the state here:
    [resolve_conflicts] takes the replies of the peers in the order the set
    yields them. *)
Record Blockchain := {
  heap : list (list json);
  chain : list block;
  current_transactions : addr;
}.

(** The dict a block is right now, with the current contents of its
    transaction list. *)
Definition view (h : list (list json)) (b : block) : dict :=
  match b with
  | Forged index timestamp transactions proof previous_hash =>
      [ (py "index", JInt index);
        (py "timestamp", JFloat timestamp);
        (py "transactions", JList (default [] (h !! transactions)));
        (py "proof", JInt proof);
        (py "previous_hash", JStr previous_hash) ]
  | Fetched d => d
  end.

(** [self.chain] as the dicts it holds. *)
Definition chain_view (self : Blockchain) : list dict :=
  map (view (heap self)) (chain self).

(** The pending pool: the contents of [self.current_transactions]. *)
Definition pool (self : Blockchain) : list json :=
  default [] (heap self !! current_transactions self).

(** [new_block(proof, previous_hash)]; [now] is what [time.time()] returns.
    An absent or empty [previous_hash] is falsy and gives way to the hash
    of the last block. *)
Definition new_block (self : Blockchain) (now : float) (proof : Z)
    (previous_hash : option pystr) : result (Blockchain * block) :=
  previous_hash ←
    match previous_hash with
    | Some (c :: s) => Ok (c :: s)
    | _ =>
        match last (chain self) with
        | Some b => Ok (hash (view (heap self) b))
        | None => Raise IndexError
        end
    end;
  let block :=
    Forged (Z.of_nat (length (chain self)) + 1) now (current_transactions self)
           proof previous_hash in
  Ok ({| heap := heap self ++ [[]];
         chain := chain self ++ [block];
         current_transactions := length (heap self) |}, block).

(** [Blockchain()]: empty chain, empty pool, then the genesis block. *)
Definition Blockchain_init (now : float) : result Blockchain :=
  let self := {| heap := [[]]; chain := []; current_transactions := 0 |} in
  r ← new_block self now 100 (Some (py "1"));
  Ok r.1.

(** [v + 1] for the ['index'] of a block *)
Definition index_succ (v : json) : result Z :=
  match v with
  | JInt z => Ok (z + 1)%Z
  | JBool b => Ok (if b then 2 else 1)%Z
  | JFloat _ => Raise Unmodelled
  | _ => Raise TypeError
  end.

(** The dict [new_transaction] builds. *)
Definition transaction (sender recipient : pystr) (amount : json) : json :=
  JDict [ (py "sender", JStr sender);
          (py "recipient", JStr recipient);
          (py "amount", amount) ].

(** [new_transaction(sender, recipient, amount)]: the append happens before
    the index of the last block is read, so it persists even if that
    raises. *)
Definition new_transaction (self : Blockchain) (sender recipient : pystr)
    (amount : json) : Blockchain * result Z :=
  let txn := transaction sender recipient amount in
  let self' := {| heap := alter (λ l, l ++ [txn]) (current_transactions self) (heap self);
                  chain := chain self;
                  current_transactions := current_transactions self |} in
  (self',
   match last (chain self') with
   | Some b => v ← getitem (view (heap self') b) (py "index"); index_succ v
   | None => Raise IndexError
   end).

(** ** Blockchain.valid_chain *)

(** [v != s] for a [str] s *)
Definition ne_str (v : json) (s : pystr) : bool :=
  match v with
  | JStr s' => negb (str_eqb s' s)
  | _ => true
  end.

(** The [while] loop, on the blocks still ahead of [current_index]. *)
Fixpoint valid_chain_loop (last_block : dict) (rest : list dict) : result bool :=
  match rest with
  | [] => Ok true
  | block :: rest' =>
      previous_hash ← getitem block (py "previous_hash");
      if ne_str previous_hash (hash last_block) then Ok false
      else
        last_proof ← getitem last_block (py "proof");
        proof ← getitem block (py "proof");
        last_hash ←
          (if contains last_block (py "previous_hash")
           then getitem last_block (py "previous_hash")
           else Ok (JStr (hash last_block)));
        ok ← valid_proof last_proof proof last_hash None;
        if negb ok then Ok false
        else valid_chain_loop block rest'
  end.

Definition valid_chain (chain : list dict) : result bool :=
  match chain with
  | [] => Raise IndexError
  | last_block :: rest => valid_chain_loop last_block rest
  end.

(** ** Blockchain.resolve_conflicts *)

(** What one peer answers to [GET /chain]: nothing usable (a request error
    or a status other than 200), or a JSON body with an integer ['length']
    and a list of dicts as ['chain']. *)
Inductive reply :=
  | Unreachable
  | Answer (length : Z) (chain : list dict).

(** The [for] loop over the peers, in the order the set yields them. *)
Fixpoint scan (replies : list reply) (max_length : Z) (new_chain : option (list dict))
  : result (option (list dict)) :=
  match replies with
  | [] => Ok new_chain
  | Unreachable :: rest => scan rest max_length new_chain
  | Answer length chain :: rest =>
      if (max_length <? length)%Z then
        valid_chain chain ≫= λ ok : bool,
          if ok then scan rest length (Some chain)
          else scan rest max_length new_chain
      else scan rest max_length new_chain
  end.

(** An exception leaves [self] as it was, since the chain is assigned only
    after the loop.  [if new_chain:] is false for [None] and for an empty
    list. *)
Definition resolve_conflicts (self : Blockchain) (replies : list reply)
  : result (Blockchain * bool) :=
  new_chain ← scan replies (Z.of_nat (length (chain self))) None;
  match new_chain with
  | Some (b :: c) =>
      Ok ({| heap := heap self;
             chain := map Fetched (b :: c);
             current_transactions := current_transactions self |}, true)
  | _ => Ok (self, false)
  end.

(** ** Blockchain.proof_of_work *)

(** The search loop.  It has no bound in the source; [fuel] counts the
    iterations allowed here and [None] means they ran out. *)
Fixpoint proof_of_work_loop (fuel : nat) (target : pystr) (last_proof : Z)
    (last_hash : pystr) (proof : Z) : option (result Z) :=
  match fuel with
  | O => None
  | S fuel' =>
      match valid_proof (JInt last_proof) (JInt proof) (JStr last_hash) (Some target) with
      | Raise e => Some (Raise e)
      | Ok true => Some (Ok proof)
      | Ok false => proof_of_work_loop fuel' target last_proof last_hash (proof + 1)
      end
  end.

(** The search at a given difficulty; the source runs it at [DIFFICULTY]. *)
Definition proof_of_work_at (difficulty : nat) (fuel : nat) (last_proof : Z)
    (last_hash : pystr) : option (result Z) :=
  proof_of_work_loop fuel (replicate difficulty 48%N) last_proof last_hash 0.

Definition proof_of_work : nat → Z → pystr → option (result Z) :=
  proof_of_work_at DIFFICULTY.


(** ** Calls on a running node *)

(** The three operations that change a ledger.  The web framework turns an
    exception into an error response and keeps serving, so a call that
    raises leaves behind whatever it had changed before raising. *)
Inductive call :=
  | RecordTransaction (sender recipient : pystr) (amount : json)
  | MineBlock (now : float) (proof : Z) (previous_hash : option pystr)
  | ResolveConflicts (replies : list reply).

Definition step (self : Blockchain) (c : call) : Blockchain :=
  match c with
  | RecordTransaction sender recipient amount =>
      (new_transaction self sender recipient amount).1
  | MineBlock now proof previous_hash =>
      match new_block self now proof previous_hash with
      | Ok r => r.1
      | Raise _ => self
      end
  | ResolveConflicts replies =>
      match resolve_conflicts self replies with
      | Ok r => r.1
      | Raise _ => self
      end
  end.

Definition run (self : Blockchain) (calls : list call) : Blockchain :=
  foldl step self calls.

(** The transactions submitted by a sequence of calls, in order. *)
Definition recorded (calls : list call) : list json :=
  concat (map (λ c, match c with
                    | RecordTransaction sender recipient amount =>
                        [transaction sender recipient amount]
                    | _ => []
                    end) calls).

Definition is_local (c : call) : bool :=
  match c with
  | ResolveConflicts _ => false
  | _ => true
  end.

(** The transaction sequence a block carries, and those of a whole chain. *)
Definition block_transactions (d : dict) : list json :=
  match dict_get d (py "transactions") with
  | Some (JList l) => l
  | _ => []
  end.

Definition embedded (self : Blockchain) : list json :=
  concat (map block_transactions (chain_view self)).

(** ** Vocabulary of the properties *)

(** The two checks of the chain validator on an adjacent pair, as the
    design document words them: (a) the link, (b) the work, against the
    previous block's own ['previous_hash'] when it has one and its hash
    otherwise. *)
Definition link_check (prev cur : dict) : result bool :=
  v ← getitem cur (py "previous_hash");
  Ok (negb (ne_str v (hash prev))).

Definition reference_hash (prev : dict) : json :=
  match dict_get prev (py "previous_hash") with
  | Some v => v
  | None => JStr (hash prev)
  end.

Definition work_check (prev cur : dict) : result bool :=
  last_proof ← getitem prev (py "proof");
  proof ← getitem cur (py "proof");
  valid_proof last_proof proof (reference_hash prev) None.

Definition pair_passes (prev cur : dict) : Prop :=
  link_check prev cur = Ok true ∧ work_check prev cur = Ok true.

Definition pair_fails (prev cur : dict) : Prop :=
  link_check prev cur = Ok false
  ∨ (link_check prev cur = Ok true ∧ work_check prev cur = Ok false).

(** Two values that are equal as Python compares them structurally: the
    same scalars, lists equal element by element, dicts with the same keys
    bound to equal values, whatever the insertion order. *)
#[warnings="-register-all"] Inductive same_value : json → json → Prop :=
  | same_null : same_value JNull JNull
  | same_bool b : same_value (JBool b) (JBool b)
  | same_int z : same_value (JInt z) (JInt z)
  | same_float x : same_value (JFloat x) (JFloat x)
  | same_str s : same_value (JStr s) (JStr s)
  | same_list l1 l2 :
      Forall2 same_value l1 l2 → same_value (JList l1) (JList l2)
  | same_dict d1 d2 :
      dict_ok d1 → dict_ok d2 →
      (∀ k, option_Forall2 same_value (dict_get d1 k) (dict_get d2 k)) →
      same_value (JDict d1) (JDict d2).

(** A previous-hash argument that agrees with the chain it is appended to:
    left out, empty, or the hash of the block that is last at the call (what
    the [/mine] route passes). *)
Definition links_to_last (self : Blockchain) (previous_hash : option pystr) : Prop :=
  match previous_hash with
  | Some (c :: s) =>
      ∃ b, last (chain self) = Some b ∧ c :: s = hash (view (heap self) b)
  | _ => True
  end.

(** Ledgers built from construction by [new_transaction] and by [new_block]
    with such arguments. *)
Inductive mined : Blockchain → Prop :=
  | mined_init now self :
      Blockchain_init now = Ok self → mined self
  | mined_transaction self sender recipient amount :
      mined self → mined (new_transaction self sender recipient amount).1
  | mined_block self now proof previous_hash self' b :
      mined self →
      links_to_last self previous_hash →
      new_block self now proof previous_hash = Ok (self', b) →
      mined self'.

(** A reply qualifies for adoption against a local chain of [n] blocks. *)
Definition qualifies (n : Z) (r : reply) : Prop :=
  match r with
  | Answer len c => (n < len)%Z ∧ valid_chain c = Ok true
  | Unreachable => False
  end.

(** The order of the entries after sorting: no later key is below an
    earlier one. *)
Definition key_le {V} (x y : list N * V) : Prop := str_ltb y.1 x.1 = false.

(** The address of the transaction list a block shares with the heap. *)
Definition block_addr (b : block) : option nat :=
  match b with
  | Forged _ _ transactions _ _ => Some transactions
  | Fetched _ => None
  end.

(** How the heap is laid out at any time: the pool and the list of every
    forged block exist, and no block holds the list that is the pool. *)
Record ledger_ok (self : Blockchain) : Prop := {
  pool_allocated : current_transactions self < length (heap self);
  blocks_allocated :
    ∀ b a, b ∈ chain self → block_addr b = Some a → a < length (heap self);
  pool_private :
    ∀ b, b ∈ chain self → block_addr b ≠ Some (current_transactions self);
}.

(** ** The routes *)

(** The search of [proof_of_work] on whatever the last block holds under
    ['proof']: the [/mine] route passes it on unchecked. *)
Fixpoint proof_of_work_search (fuel : nat) (target : pystr) (last_proof : json)
    (last_hash : pystr) (proof : Z) : option (result Z) :=
  match fuel with
  | O => None
  | S fuel' =>
      match valid_proof last_proof (JInt proof) (JStr last_hash) (Some target) with
      | Raise e => Some (Raise e)
      | Ok true => Some (Ok proof)
      | Ok false =>
          proof_of_work_search fuel' target last_proof last_hash (proof + 1)
      end
  end.

(** [GET /mine]: solve against the hash of the last block, record the
    reward for [node_identifier], forge the block.  [None] means the search
    ran out of [fuel]; otherwise the ledger as the call leaves it and the
    block forged or the exception raised. *)
Definition mine (fuel : nat) (self : Blockchain) (now : float)
    (node_identifier : pystr) : option (Blockchain * result block) :=
  match last (chain self) with
  | None => Some (self, Raise IndexError)
  | Some last_block =>
      match getitem (view (heap self) last_block) (py "proof") with
      | Raise e => Some (self, Raise e)
      | Ok last_proof =>
          let last_hash := hash (view (heap self) last_block) in
          match proof_of_work_search fuel (replicate DIFFICULTY 48%N)
                  last_proof last_hash 0 with
          | None => None
          | Some (Raise e) => Some (self, Raise e)
          | Some (Ok proof) =>
              let r := new_transaction self (py "0") node_identifier (JInt 1) in
              match r.2 with
              | Raise e => Some (r.1, Raise e)
              | Ok _ =>
                  match new_block r.1 now proof (Some last_hash) with
                  | Ok r' => Some (r'.1, Ok r'.2)
                  | Raise e => Some (r.1, Raise e)
                  end
              end
          end
      end
  end.

(** Ledgers a node can be in: constructed, then changed by submitted
    transactions, by [/mine] and by [/nodes/resolve]. *)
Inductive served : Blockchain → Prop :=
  | served_init now self :
      Blockchain_init now = Ok self → served self
  | served_transaction self sender recipient amount :
      served self → served (new_transaction self sender recipient amount).1
  | served_mine self fuel now node_identifier self' r :
      served self →
      mine fuel self now node_identifier = Some (self', r) →
      served self'
  | served_resolve self replies self' replaced :
      served self →
      resolve_conflicts self replies = Ok (self', replaced) →
      served self'.

(** ** Peers *)

Section peers.

(** [urllib.parse.urlparse] is library code: taken as a parameter that
    gives the [netloc] and the [path] of an address, or nothing where it
    raises [ValueError]. *)
Variable urlparse : list N → option (list N * list N).

(** What [register_node] would add for an address. *)
Definition node_key (address : list N) : option (list N) :=
  parsed ← urlparse address;
  match parsed.1, parsed.2 with
  | _ :: _, _ => Some parsed.1
  | [], _ :: _ => Some parsed.2
  | [], [] => None
  end.

(** [register_node(address)] on the set [self.nodes]; [None] is the
    [ValueError]. *)
Definition register_node (nodes : gset (list N)) (address : list N)
  : option (gset (list N)) :=
  parsed ← urlparse address;
  match parsed.1 with
  | _ :: _ => Some ({[ parsed.1 ]} ∪ nodes)
  | [] =>
      match parsed.2 with
      | _ :: _ => Some ({[ parsed.2 ]} ∪ nodes)
      | [] => None
      end
  end.

(** The loop of [POST /nodes/register]: addresses that raise are skipped. *)
Definition register_nodes (nodes : gset (list N)) (addresses : list (list N))
  : gset (list N) :=
  foldl (λ ns address, default ns (register_node ns address)) nodes addresses.

End peers.

(** ** More vocabulary *)

(** Every block after the first names the hash of the block before it. *)
Definition linked (c : list dict) : Prop :=
  ∀ i prev cur,
    c !! i = Some prev → c !! S i = Some cur →
    dict_get cur (py "previous_hash") = Some (JStr (hash prev)).


(** A reply that reports the length of the chain it carries, as the
    [/chain] route does. *)
Definition reports_length (r : reply) : Prop :=
  match r with
  | Answer len c => len = Z.of_nat (length c)
  | Unreachable => True
  end.

(** A reply the scan may act on: an answer that reports more than [n]. *)
Definition exceeds (n : Z) (r : reply) : bool :=
  match r with
  | Answer len _ => (n <? len)%Z
  | Unreachable => false
  end.

(** A chain of blocks forged here, numbered from 1 without gaps. *)
Definition numbered (self : Blockchain) : Prop :=
  ∀ i b, chain self !! i = Some b →
    ∃ ts a p h, b = Forged (Z.of_nat i + 1) ts a p h.

(** A lowercase hexadecimal digit. *)
Definition hex_char (c : N) : Prop :=
  (48 ≤ c ≤ 57)%N ∨ (97 ≤ c ≤ 102)%N.

(** ** Sample data *)

Module Sample.

Definition clock (tenths : N) : float := FNum false tenths (-1).

(** A node started at 1762190730.5. *)
Definition node : Blockchain :=
  {| heap := [[]; []];
     chain := [Forged 1 (clock 17621907305) 0 100 (py "1")];
     current_transactions := 1 |}.

Definition payment : json := transaction (py "carol") (py "dave") (JInt 7).

(** Chains as peers serve them.  106201 is a proof for (100, "1") and
    45508 one for (106201, hash of [genesis]) at difficulty 4. *)
Definition genesis : dict :=
  [ (py "index", JInt 1);
    (py "timestamp", JFloat (clock 17621000005));
    (py "transactions", JList []);
    (py "proof", JInt 100);
    (py "previous_hash", JStr (py "1")) ].

Definition second (txns : list json) : dict :=
  [ (py "index", JInt 2);
    (py "timestamp", JFloat (clock 17621000602));
    (py "transactions", JList txns);
    (py "proof", JInt 106201);
    (py "previous_hash", JStr (hash genesis)) ].

Definition third (prev : dict) : dict :=
  [ (py "index", JInt 3);
    (py "timestamp", JFloat (clock 17621001207));
    (py "transactions", JList []);
    (py "proof", JInt 45508);
    (py "previous_hash", JStr (hash prev)) ].

Definition reward (recipient : string) : json :=
  transaction (py "0") (py recipient) (JInt 1).

(** The genesis block with its fields set in another order. *)
Definition genesis_reordered : dict :=
  [ (py "previous_hash", JStr (py "1"));
    (py "proof", JInt 100);
    (py "transactions", JList []);
    (py "timestamp", JFloat (clock 17621000005));
    (py "index", JInt 1) ].

Definition chain_alice : list dict := [genesis; second [reward "alice"]].
Definition chain_bob : list dict := [genesis; second [reward "bob"]].
Definition chain_paid : list dict := [genesis; second [payment]].
(** The node after one transaction, and after mining it into a block. *)
Definition node_paid : Blockchain :=
  run node [RecordTransaction (py "carol") (py "dave") (JInt 7)].

Definition node_mined : Blockchain :=
  run node_paid [MineBlock (clock 17621907900) 35293 None].

Definition chain_long : list dict :=
  [genesis; second [reward "alice"]; third (second [reward "alice"])].

(** A node started at 1762191096.9, for which 16 is the first proof
    against the hash of its genesis block. *)
Definition miner : Blockchain :=
  {| heap := [[]; []];
     chain := [Forged 1 (clock 17621910969) 0 100 (py "1")];
     current_transactions := 1 |}.

Definition miner_id : list N := py "51f3c0a4d2b84e6f9a7c1e0b3d5f6a28".

(** The miner after one [/mine] call at 1762191150.2. *)
Definition miner_mined : Blockchain :=
  match mine 20 miner (clock 17621911502) miner_id with
  | Some r => r.1
  | None => miner
  end.

(** A one-block chain without an ['index'], and the first node after
    adopting it from a peer that announced two blocks.  4 is the first
    proof against the hash of that block. *)
Definition stub : dict :=
  [ (py "proof", JInt 100);
    (py "previous_hash", JStr (py "1"));
    (py "timestamp", JInt 856) ].

Definition node_stub : Blockchain :=
  {| heap := heap node; chain := [Fetched stub]; current_transactions := 1 |}.


End Sample.

(** * Properties *)

(** ** The hash function agrees with the library on known digests *)

Example sha256_abc :
  SHA256.hexdigest (py "abc")
  = py "ba7816bf8f01cfea414140de5dae2223b00361a396177a9cb410ff61f20015ad".
Proof. vm_compute. reflexivity. Qed.

Example sha256_empty :
  SHA256.hexdigest []
  = py "e3b0c44298fc1c149afbf4c8996fb92427ae41e4649b934ca495991b7852b855".
Proof. vm_compute. reflexivity. Qed.

Example sha256_two_blocks :
  SHA256.hexdigest (replicate 119 97%N)
  = py "31eba51c313a5c08226adf18d4a359cfdfd8d2e816b13f4af952f7ea6584dcfb".
Proof. vm_compute. reflexivity. Qed.

Example float_repr_forms :
  map float_repr [FNum false 1 16; FNum false 1 15; FNum false 1 (-5);
                  FNum true 0 0; FNum false 17621907305 (-1)]
  = [py "1e+16"; py "1000000000000000.0"; py "1e-05"; py "-0.0";
     py "1762190730.5"].
Proof. vm_compute. reflexivity. Qed.

Example dumps_sorts_keys :
  let q := [34%N] in
  dumps (JDict Sample.genesis)
  = py "{" ++ q ++ py "index" ++ q ++ py ": 1, "
    ++ q ++ py "previous_hash" ++ q ++ py ": " ++ q ++ py "1" ++ q ++ py ", "
    ++ q ++ py "proof" ++ q ++ py ": 100, "
    ++ q ++ py "timestamp" ++ q ++ py ": 1762100000.5, "
    ++ q ++ py "transactions" ++ q ++ py ": []}".
Proof. vm_compute. reflexivity. Qed.

Example hash_genesis :
  hash Sample.genesis
  = py "2ab604c17b1913dfbd08884cdf96fabbc76131f79041fd18a8efa04f4028882b".
Proof. vm_compute. reflexivity. Qed.

Example sample_node_is_fresh :
  Blockchain_init (Sample.clock 17621907305) = Ok Sample.node.
Proof. reflexivity. Qed.

(** ** The result monad *)

Lemma bind_Ok {A B} (r : result A) (f : A → result B) (b : B) :
  r ≫= f = Ok b ↔ ∃ a, r = Ok a ∧ f a = Ok b.
Proof.
  destruct r as [a|e]; simpl.
  - split; [eauto|]. by intros (? & [= <-] & ?).
  - split; [done|]. by intros (? & ? & ?).
Qed.

(** ** Construction *)

(** C8.  A freshly constructed ledger holds exactly one block, with index
    1, the sentinel proof 100 and the sentinel previous hash "1", and its
    pending pool is empty. *)
Theorem genesis_ledger (now : float) :
  ∃ self,
    Blockchain_init now = Ok self
    ∧ chain_view self =
        [[ (py "index", JInt 1);
           (py "timestamp", JFloat now);
           (py "transactions", JList []);
           (py "proof", JInt 100);
           (py "previous_hash", JStr (py "1")) ]]
    ∧ pool self = [].
Proof. eexists; split; [reflexivity|]. by split. Qed.

(** ** The pool and the block that takes it *)

Lemma new_block_Ok self now proof previous_hash :
  chain self ≠ [] →
  ∃ h,
    new_block self now proof previous_hash =
      Ok ({| heap := heap self ++ [[]];
             chain := chain self ++
               [Forged (Z.of_nat (length (chain self)) + 1) now
                       (current_transactions self) proof h];
             current_transactions := length (heap self) |},
          Forged (Z.of_nat (length (chain self)) + 1) now
                 (current_transactions self) proof h).
Proof.
  intros Hne. unfold new_block.
  destruct (last (chain self)) as [b|] eqn:Hlast.
  - destruct previous_hash as [[|c s]|]; eauto.
  - apply last_None in Hlast. done.
Qed.

Lemma pool_new_transaction self sender recipient amount :
  current_transactions self < length (heap self) →
  pool (new_transaction self sender recipient amount).1
  = pool self ++ [transaction sender recipient amount].
Proof.
  intros Hlt. unfold pool; simpl.
  destruct (lookup_lt_is_Some_2 _ _ Hlt) as [l Hl].
  by rewrite list_lookup_alter_eq, Hl.
Qed.

(** C7.  Starting with an empty pool, three recorded transactions followed
    by a mined block leave the pool empty and the block carrying exactly
    those three, in submission order; a transaction recorded afterwards
    goes to the pool and leaves the mined block as it was. *)
Theorem pool_moves_into_block self s1 r1 a1 s2 r2 a2 s3 r3 a3 now proof
    previous_hash s4 r4 a4 :
  current_transactions self < length (heap self) →
  pool self = [] →
  chain self ≠ [] →
  let self1 := (new_transaction self s1 r1 a1).1 in
  let self2 := (new_transaction self1 s2 r2 a2).1 in
  let self3 := (new_transaction self2 s3 r3 a3).1 in
  ∃ self4 block,
    new_block self3 now proof previous_hash = Ok (self4, block)
    ∧ pool self4 = []
    ∧ last (chain self4) = Some block
    ∧ dict_get (view (heap self4) block) (py "transactions")
      = Some (JList [transaction s1 r1 a1; transaction s2 r2 a2;
                     transaction s3 r3 a3])
    ∧ let self5 := (new_transaction self4 s4 r4 a4).1 in
      view (heap self5) block = view (heap self4) block
      ∧ chain self5 = chain self4
      ∧ pool self5 = [transaction s4 r4 a4].
Proof.
  intros Hlt Hpool Hne self1 self2 self3.
  assert (Hlt1 : current_transactions self1 < length (heap self1))
    by (simpl; by rewrite length_alter).
  assert (Hlt2 : current_transactions self2 < length (heap self2))
    by (simpl; by rewrite !length_alter).
  assert (Hlt3 : current_transactions self3 < length (heap self3))
    by (simpl; by rewrite !length_alter).
  assert (Hpool3 : pool self3 = [transaction s1 r1 a1; transaction s2 r2 a2;
                                 transaction s3 r3 a3]).
  { unfold self3, self2, self1.
    rewrite !pool_new_transaction, Hpool by done. done. }
  destruct (new_block_Ok self3 now proof previous_hash Hne) as [h Hnb].
  eexists _, _. split; [exact Hnb|].
  unfold pool in *; simpl in *.
  destruct (lookup_lt_is_Some_2 _ _ Hlt3) as [l Hl].
  rewrite Hl in Hpool3; simpl in Hpool3; subst l.
  split; [by rewrite lookup_app_r, Nat.sub_diag by lia|].
  split; [by rewrite last_snoc|].
  split; [by rewrite lookup_app_l, Hl by done|].
  split; [|split; [done|]].
  - rewrite list_lookup_alter_ne by lia. done.
  - rewrite list_lookup_alter_eq, lookup_app_r, Nat.sub_diag by lia. done.
Qed.

Lemma pool_moves_into_block_witness :
  ∃ self4 block,
    new_block
      (new_transaction
         (new_transaction
            (new_transaction Sample.node (py "a") (py "b") (JInt 1)).1
            (py "b") (py "c") (JInt 2)).1
         (py "c") (py "a") (JInt 3)).1
      (Sample.clock 17621907400) 35293 None = Ok (self4, block)
    ∧ pool self4 = []
    ∧ last (chain self4) = Some block
    ∧ dict_get (view (heap self4) block) (py "transactions")
      = Some (JList [transaction (py "a") (py "b") (JInt 1);
                     transaction (py "b") (py "c") (JInt 2);
                     transaction (py "c") (py "a") (JInt 3)])
    ∧ let self5 := (new_transaction self4 (py "d") (py "a") (JInt 4)).1 in
      view (heap self5) block = view (heap self4) block
      ∧ chain self5 = chain self4
      ∧ pool self5 = [transaction (py "d") (py "a") (JInt 4)].
Proof.
  apply (pool_moves_into_block Sample.node).
  - simpl. lia.
  - reflexivity.
  - discriminate.
Defined.

(** ** Text and its encoding *)

Lemma encode_app s t :
  encode (s ++ t) = (b ← encode s; c ← encode t; Ok (b ++ c)).
Proof.
  induction s as [|a s IH]; simpl.
  - by destruct (encode t).
  - destruct (encode_char a) as [b|]; simpl; [|done].
    rewrite IH. destruct (encode s) as [bs|]; simpl; [|done].
    destruct (encode t); simpl; [|done]. by rewrite (assoc_L (++)).
Qed.

Lemma encode_ascii s : ascii_only s → encode s = Ok s.
Proof.
  induction 1 as [|c s Hc _ IH]; simpl; [done|].
  unfold encode_char. apply N.ltb_lt in Hc. by rewrite Hc, IH.
Qed.

Lemma digits_aux_ascii fuel n acc :
  ascii_only acc → ascii_only (digits_aux fuel n acc).
Proof.
  revert n acc. induction fuel as [|fuel IH]; intros n acc Hacc; simpl; [done|].
  assert (ascii_only ((48 + n mod 10)%N :: acc)).
  { constructor; [|done]. pose proof (N.mod_upper_bound n 10). lia. }
  destruct (n <? 10)%N; auto.
Qed.

Lemma digits_ascii n : ascii_only (digits n).
Proof. apply digits_aux_ascii. constructor. Qed.

(** The digits printed for a number denote it: the iteration bound in
    [digits] never cuts a number short. *)
Lemma digits_aux_value fuel : ∀ n acc,
  (n < 2 ^ N.of_nat fuel)%N →
  foldl (λ a c, 10 * a + (c - 48))%N 0%N (digits_aux fuel n acc)
  = foldl (λ a c, 10 * a + (c - 48))%N n acc.
Proof.
  induction fuel as [|fuel IH]; intros n acc Hn.
  - simpl in *. by replace n with 0%N by lia.
  - cbn [digits_aux].
    assert (Hstep : ∀ a, (10 * a + (48 + n mod 10 - 48))%N = (10 * a + n mod 10)%N)
      by (intros; generalize (n mod 10)%N; intros; lia).
    destruct (n <? 10)%N eqn:Hsmall.
    + apply N.ltb_lt in Hsmall. cbn [foldl].
      by rewrite Hstep, N.mod_small by done.
    + apply N.ltb_ge in Hsmall. rewrite IH; cbn [foldl].
      * rewrite Hstep. f_equal. symmetry. apply N.div_mod'.
      * rewrite Nat2N.inj_succ, N.pow_succ_r' in Hn.
        apply N.Div0.div_lt_upper_bound. lia.
Qed.

Lemma size_nat_gt n : (n < 2 ^ N.of_nat (N.size_nat n))%N.
Proof.
  destruct n as [|p]; [done|]. simpl.
  induction p as [p IH|p IH|]; [| |done];
    cbn [Pos.size_nat]; rewrite Nat2N.inj_succ, N.pow_succ_r'; lia.
Qed.

Lemma digits_value n : decimal_value (digits n) = n.
Proof.
  unfold decimal_value, digits. rewrite digits_aux_value; [done|].
  pose proof (size_nat_gt n). rewrite Nat2N.inj_succ, N.pow_succ_r'. lia.
Qed.

Lemma int_str_ascii z : ascii_only (int_str z).
Proof.
  unfold int_str. destruct (z <? 0)%Z; [constructor; [done|]|]; apply digits_ascii.
Qed.

(** ** Proof of work *)

(** A proof check on integer proofs fails to return only when the hash it
    is given cannot be encoded, whatever the proofs. *)
Lemma valid_proof_int last_proof proof last_hash target :
  valid_proof (JInt last_proof) (JInt proof) (JStr last_hash) target
  = (h ← encode last_hash;
     Ok (str_eqb
           (take (length (default (replicate DIFFICULTY 48%N) target))
                 (SHA256.hexdigest (int_str last_proof ++ int_str proof ++ h)))
           (default (replicate DIFFICULTY 48%N) target))).
Proof.
  unfold valid_proof; simpl.
  rewrite !encode_app, !(encode_ascii (int_str _)) by apply int_str_ascii.
  simpl. by destruct (encode last_hash).
Qed.

Lemma valid_proof_int_total last_proof p q last_hash target b :
  valid_proof (JInt last_proof) (JInt p) (JStr last_hash) target = Ok b →
  ∃ b', valid_proof (JInt last_proof) (JInt q) (JStr last_hash) target = Ok b'.
Proof.
  rewrite !valid_proof_int. destruct (encode last_hash); simpl; [eauto|done].
Qed.

Lemma proof_of_work_loop_finds target last_proof last_hash (n : nat) :
  ∀ start : Z,
    valid_proof (JInt last_proof) (JInt (start + Z.of_nat n)) (JStr last_hash)
                (Some target) = Ok true →
    ∃ p : Z,
      (start ≤ p ≤ start + Z.of_nat n)%Z
      ∧ valid_proof (JInt last_proof) (JInt p) (JStr last_hash) (Some target)
        = Ok true
      ∧ (∀ q, (start ≤ q < p)%Z →
           valid_proof (JInt last_proof) (JInt q) (JStr last_hash) (Some target)
           = Ok false)
      ∧ ∀ fuel, Z.to_nat (p - start) < fuel →
          proof_of_work_loop fuel target last_proof last_hash start = Some (Ok p).
Proof.
  induction n as [|n IH]; intros start Hn.
  - rewrite Z.add_0_r in Hn. exists start.
    split; [lia|]. split; [done|]. split; [lia|].
    intros [|fuel] ?; [lia|]. simpl. by rewrite Hn.
  - destruct (valid_proof_int_total _ _ start _ _ _ Hn) as [[|] Hstart].
    + exists start. split; [lia|]. split; [done|]. split; [lia|].
      intros [|fuel] ?; [lia|]. simpl. by rewrite Hstart.
    + destruct (IH (start + 1)%Z) as (p & Hp & Hvalid & Hmin & Hfuel).
      { by replace (start + 1 + Z.of_nat n)%Z with (start + Z.of_nat (S n))%Z by lia. }
      exists p. split; [lia|]. split; [done|]. split.
      * intros q Hq. destruct (decide (q = start)) as [->|]; [done|].
        apply Hmin. lia.
      * intros [|fuel] ?; [lia|]. simpl. rewrite Hstart. apply Hfuel. lia.
Qed.

(** C5.  Whenever some non-negative proof is valid for [last_proof] and
    [last_hash] at difficulty [d], the search returns, given enough
    iterations, a proof that is valid and below which no non-negative
    integer is. *)
Theorem proof_of_work_minimal (d : nat) (last_proof : Z) (last_hash : list N) :
  (∃ p0, (0 ≤ p0)%Z
     ∧ valid_proof (JInt last_proof) (JInt p0) (JStr last_hash)
                   (Some (replicate d 48%N)) = Ok true) →
  ∃ p,
    (0 ≤ p)%Z
    ∧ (∃ enough, ∀ fuel, enough ≤ fuel →
         proof_of_work_at d fuel last_proof last_hash = Some (Ok p))
    ∧ valid_proof (JInt last_proof) (JInt p) (JStr last_hash)
                  (Some (replicate d 48%N)) = Ok true
    ∧ ∀ q, (0 ≤ q < p)%Z →
        valid_proof (JInt last_proof) (JInt q) (JStr last_hash)
                    (Some (replicate d 48%N)) = Ok false.
Proof.
  intros (p0 & Hp0 & Hvalid).
  destruct (proof_of_work_loop_finds (replicate d 48%N) last_proof last_hash
              (Z.to_nat p0) 0) as (p & Hp & Hv & Hmin & Hfuel).
  { by rewrite Z.add_0_l, Z2Nat.id. }
  exists p. split; [lia|]. split; [|done].
  exists (S (Z.to_nat p)). intros fuel Hle. apply Hfuel.
  rewrite Z.sub_0_r. lia.
Qed.

Lemma proof_of_work_minimal_witness :
  ∃ p,
    (0 ≤ p)%Z
    ∧ (∃ enough, ∀ fuel, enough ≤ fuel →
         proof_of_work_at 1 fuel 100 (py "1") = Some (Ok p))
    ∧ valid_proof (JInt 100) (JInt p) (JStr (py "1")) (Some (replicate 1 48%N))
      = Ok true
    ∧ ∀ q, (0 ≤ q < p)%Z →
        valid_proof (JInt 100) (JInt q) (JStr (py "1")) (Some (replicate 1 48%N))
        = Ok false.
Proof.
  apply (proof_of_work_minimal 1 100 (py "1")).
  exists 15%Z. split; [lia|]. vm_compute. reflexivity.
Defined.

(** The search the source runs is the one at [DIFFICULTY]; at difficulty 2
    it stops at 378 for the genesis values. *)
Example proof_of_work_378 :
  proof_of_work_at 2 400 100 (py "1") = Some (Ok 378%Z).
Proof. vm_compute. reflexivity. Qed.

(** ** The chain validator *)

(** One turn of the loop is the link check, then the work check, then the
    rest of the walk. *)
Lemma valid_chain_loop_cons last_block block rest :
  valid_chain_loop last_block (block :: rest)
  = (linked ← link_check last_block block;
     if negb linked then Ok false
     else worked ← work_check last_block block;
          if negb worked then Ok false
          else valid_chain_loop block rest).
Proof.
  simpl. unfold link_check, work_check, reference_hash, getitem, contains.
  destruct (dict_get block (py "previous_hash")) as [v|]; simpl; [|done].
  destruct (ne_str v (hash last_block)); simpl; [done|].
  destruct (dict_get last_block (py "proof")) as [lp|]; simpl; [|done].
  destruct (dict_get block (py "proof")) as [p|]; simpl; [|done].
  by destruct (dict_get last_block (py "previous_hash")).
Qed.

Lemma valid_chain_loop_true last_block rest :
  valid_chain_loop last_block rest = Ok true
  ↔ ∀ i prev cur,
      (last_block :: rest) !! i = Some prev →
      (last_block :: rest) !! S i = Some cur →
      pair_passes prev cur.
Proof.
  revert last_block. induction rest as [|block rest IH]; intros last_block.
  - split; [|done]. intros _ i prev cur _ Hcur.
    by destruct i.
  - rewrite valid_chain_loop_cons. split.
    + intros Hloop i prev cur Hprev Hcur.
      destruct (link_check last_block block) as [[|]|] eqn:Hlink; simpl in Hloop;
        try done.
      destruct (work_check last_block block) as [[|]|] eqn:Hwork; simpl in Hloop;
        try done.
      destruct i as [|i]; simpl in Hprev, Hcur.
      * by simplify_eq.
      * by apply (proj1 (IH block) Hloop i).
    + intros Hall.
      destruct (Hall 0 last_block block) as [-> ->]; [done..|]. simpl.
      apply IH. intros i prev cur ??. by apply (Hall (S i)).
Qed.

Lemma valid_chain_loop_false last_block rest :
  valid_chain_loop last_block rest = Ok false
  ↔ ∃ i prev cur,
      (last_block :: rest) !! i = Some prev
      ∧ (last_block :: rest) !! S i = Some cur
      ∧ (∀ j p c, j < i →
           (last_block :: rest) !! j = Some p →
           (last_block :: rest) !! S j = Some c →
           pair_passes p c)
      ∧ pair_fails prev cur.
Proof.
  revert last_block. induction rest as [|block rest IH]; intros last_block.
  - split; [done|]. intros (i & prev & cur & _ & Hcur & _). by destruct i.
  - rewrite valid_chain_loop_cons. unfold pair_fails. split.
    + intros Hloop.
      destruct (link_check last_block block) as [[|]|] eqn:Hlink; simpl in Hloop;
        try done.
      * destruct (work_check last_block block) as [[|]|] eqn:Hwork;
          simpl in Hloop; try done.
        -- apply IH in Hloop as (i & prev & cur & Hprev & Hcur & Hbefore & Hfail).
           exists (S i), prev, cur. split; [done|]. split; [done|].
           split; [|done]. intros [|j] p c Hj Hp Hc; simpl in Hp, Hc.
           ++ by simplify_eq.
           ++ apply (Hbefore j); [lia|done..].
        -- exists 0, last_block, block. split; [done|]. split; [done|].
           split; [lia|]. rewrite Hwork. by right.
      * exists 0, last_block, block. split; [done|]. split; [done|].
        split; [lia|]. by left.
    + intros (i & prev & cur & Hprev & Hcur & Hbefore & Hfail).
      destruct i as [|i]; simpl in Hprev, Hcur.
      * simplify_eq. by destruct Hfail as [->|[-> ->]].
      * destruct (Hbefore 0 last_block block) as [-> ->]; [lia|done..|]. simpl.
        apply IH. exists i, prev, cur. split; [done|]. split; [done|].
        split; [|done]. intros j p c Hj Hp Hc. apply (Hbefore (S j)); [lia|done..].
Qed.

(** C2.  The validator walks the adjacent pairs from the second block on,
    checking for each that the link holds and that the work holds against
    the previous block's own previous hash when present, else its hash.
    It returns true exactly when every pair passes both, false exactly
    when some pair fails one after all earlier pairs passed, and true for
    every single-block chain. *)
Theorem valid_chain_walk :
  (∀ b, valid_chain [b] = Ok true)
  ∧ (∀ chain,
       valid_chain chain = Ok true
       ↔ chain ≠ []
         ∧ ∀ i prev cur,
             chain !! i = Some prev → chain !! S i = Some cur →
             pair_passes prev cur)
  ∧ (∀ chain,
       valid_chain chain = Ok false
       ↔ ∃ i prev cur,
           chain !! i = Some prev
           ∧ chain !! S i = Some cur
           ∧ (∀ j p c, j < i →
                chain !! j = Some p → chain !! S j = Some c →
                pair_passes p c)
           ∧ pair_fails prev cur).
Proof.
  split; [done|]. split.
  - intros [|last_block rest]; simpl.
    + split; [done|]. by intros [? _].
    + rewrite valid_chain_loop_true. split; [by intros ?|by intros [_ ?]].
  - intros [|last_block rest]; simpl.
    + split; [done|]. by intros (i & ? & ? & ? & _).
    + apply valid_chain_loop_false.
Qed.

(** The fallback of the reference hash is live: a first block without a
    ['previous_hash'] is checked against its own hash. *)
Example reference_hash_fallback :
  reference_hash [(py "proof", JInt 100)] = JStr (hash [(py "proof", JInt 100)]).
Proof. reflexivity. Qed.

(** ** Conflict resolution *)

Lemma chain_view_fetched h (c : list dict) :
  map (view h) (map Fetched c) = c.
Proof. induction c as [|b c IH]; simpl; [done|]. by rewrite IH. Qed.

(** What the scan leaves in [new_chain]: either what it started with, no
    valid answer exceeding [max_length]; or the chain of the first answer
    that reports the greatest length among the valid ones. *)
Lemma scan_spec replies :
  ∀ max_length new_chain res,
    scan replies max_length new_chain = Ok res →
    (res = new_chain
     ∧ ∀ len c, Answer len c ∈ replies → valid_chain c = Ok true →
         (len ≤ max_length)%Z)
    ∨ (∃ k len c,
         replies !! k = Some (Answer len c)
         ∧ res = Some c
         ∧ (max_length < len)%Z
         ∧ valid_chain c = Ok true
         ∧ (∀ len' c', Answer len' c' ∈ replies → valid_chain c' = Ok true →
              (len' ≤ len)%Z)
         ∧ (∀ j len' c', j < k → replies !! j = Some (Answer len' c') →
              valid_chain c' = Ok true → (len' < len)%Z)).
Proof.
  induction replies as [|r replies IH]; intros m nc res Hscan; simpl in Hscan.
  { left. split; [congruence|]. intros ?? Hin. by apply elem_of_nil in Hin. }
  assert (Hskip : scan replies m nc = Ok res →
                  (∀ len c, r = Answer len c → valid_chain c = Ok true →
                     (len ≤ m)%Z) →
                  (res = nc
                   ∧ ∀ len c, Answer len c ∈ r :: replies →
                       valid_chain c = Ok true → (len ≤ m)%Z)
                  ∨ (∃ k len c,
                       (r :: replies) !! k = Some (Answer len c)
                       ∧ res = Some c ∧ (m < len)%Z ∧ valid_chain c = Ok true
                       ∧ (∀ len' c', Answer len' c' ∈ r :: replies →
                            valid_chain c' = Ok true → (len' ≤ len)%Z)
                       ∧ (∀ j len' c', j < k →
                            (r :: replies) !! j = Some (Answer len' c') →
                            valid_chain c' = Ok true → (len' < len)%Z))).
  { intros Hrest Hhead.
    destruct (IH _ _ _ Hrest)
      as [[-> Hle]|(k & len & c & Hk & -> & Hlt & Hv & Hmax & Hfirst)].
    - left. split; [done|]. intros len c [<-|Hin]%elem_of_cons ?; eauto.
    - right. exists (S k), len, c. split; [done|]. split; [done|].
      split; [done|]. split; [done|]. split.
      + intros len' c' [<-|Hin]%elem_of_cons Hv'; [|eauto].
        specialize (Hhead _ _ eq_refl Hv'). lia.
      + intros [|j] len' c' Hj Hlook Hv'; simpl in Hlook.
        * simplify_eq. specialize (Hhead _ _ eq_refl Hv'). lia.
        * eapply (Hfirst j); [lia|done..]. }
  destruct r as [|len c].
  { apply Hskip; [done|]. intros ?? [=]. }
  destruct (m <? len)%Z eqn:Hlt.
  2: { apply Hskip; [done|]. intros ?? [= <- <-] _. by apply Z.ltb_ge. }
  apply Z.ltb_lt in Hlt.
  destruct (valid_chain c) as [[|]|] eqn:Hvalid; simpl in Hscan; [| |done].
  2: { apply Hskip; [done|]. intros ?? [= <- <-] ?. congruence. }
  right.
  destruct (IH _ _ _ Hscan)
    as [[-> Hle]|(k & len' & c' & Hk & -> & Hlt' & Hv & Hmax & Hfirst)].
  - exists 0, len, c. split; [done|]. split; [done|]. split; [done|].
    split; [done|]. split; [|intros; lia].
    intros len' c' [[= -> ->]|Hin]%elem_of_cons Hv'; [lia|eauto].
  - exists (S k), len', c'. split; [done|]. split; [done|]. split; [lia|].
    split; [done|]. split.
    + intros len'' c'' [[= -> ->]|Hin]%elem_of_cons Hv'; [lia|eauto].
    + intros [|j] len'' c'' Hj Hlook Hv'; simpl in Hlook.
      * simplify_eq. lia.
      * eapply (Hfirst j); [lia|done..].
Qed.

(** The scan returns as soon as every chain it validates can be judged. *)
Lemma scan_total replies :
  (∀ len c, Answer len c ∈ replies → ∃ b, valid_chain c = Ok b) →
  ∀ max_length new_chain, ∃ res, scan replies max_length new_chain = Ok res.
Proof.
  induction replies as [|[|len c] replies IH]; intros Hall m nc; simpl.
  - eauto.
  - apply IH. intros len c Hin. apply (Hall len c). by right.
  - assert (Hrest : ∀ len' c', Answer len' c' ∈ replies → ∃ b, valid_chain c' = Ok b).
    { intros ?? Hin. eapply Hall. by right. }
    destruct (Hall len c) as [b ->]; [by left|]. simpl.
    destruct (m <? len)%Z; [destruct b|]; by apply IH.
Qed.

Lemma resolve_conflicts_returns self replies self' replaced :
  resolve_conflicts self replies = Ok (self', replaced) →
  (replaced = false
   ∧ self' = self
   ∧ ∀ r, r ∈ replies → ¬ qualifies (Z.of_nat (length (chain self))) r)
  ∨ (replaced = true
     ∧ heap self' = heap self
     ∧ current_transactions self' = current_transactions self
     ∧ ∃ k len c,
         replies !! k = Some (Answer len c)
         ∧ chain_view self' = c
         ∧ qualifies (Z.of_nat (length (chain self))) (Answer len c)
         ∧ (∀ len' c', Answer len' c' ∈ replies → valid_chain c' = Ok true →
              (len' ≤ len)%Z)
         ∧ (∀ j len' c', j < k → replies !! j = Some (Answer len' c') →
              valid_chain c' = Ok true → (len' < len)%Z)).
Proof.
  unfold resolve_conflicts. intros (res & Hscan & Hres)%bind_Ok.
  destruct (scan_spec _ _ _ _ Hscan)
    as [[-> Hle]|(k & len & c & Hk & -> & Hlt & Hv & Hmax & Hfirst)].
  - left. simplify_eq. split; [done|]. split; [done|].
    intros [|len c] Hin; simpl; [tauto|]. intros [Hlt Hv].
    specialize (Hle _ _ Hin Hv). lia.
  - right. destruct c as [|b c]; [done|]. simplify_eq. split; [done|].
    split; [done|]. split; [done|].
    exists k, len, (b :: c). split; [done|]. split; [|done].
    apply (chain_view_fetched (heap self) (b :: c)).
Qed.

(** C1, as the code has it.  When the call replaces the chain, the chain
    adopted is that of the first answer, in scan order, among the valid
    answers reporting the greatest length: every valid answer reports at
    most that length and every earlier valid one strictly less.  That
    length exceeds the local one, so an answer reporting the local length
    is never adopted. *)
Theorem adopted_is_first_longest self replies self' :
  resolve_conflicts self replies = Ok (self', true) →
  ∃ k len c,
    replies !! k = Some (Answer len c)
    ∧ chain_view self' = c
    ∧ (Z.of_nat (length (chain self)) < len)%Z
    ∧ valid_chain c = Ok true
    ∧ (∀ len' c', Answer len' c' ∈ replies → valid_chain c' = Ok true →
         (len' ≤ len)%Z)
    ∧ (∀ j len' c', j < k → replies !! j = Some (Answer len' c') →
         valid_chain c' = Ok true → (len' < len)%Z).
Proof.
  intros [(? & _)|(_ & _ & _ & k & len & c & Hk & Hview & [Hlt Hv] & Hmax & Hfirst)]
    %resolve_conflicts_returns; [done|].
  by exists k, len, c.
Qed.

Lemma adopted_is_first_longest_witness :
  ∃ k len c,
    [Answer 2 Sample.chain_alice; Unreachable; Answer 3 Sample.chain_long;
     Answer 3 Sample.chain_paid] !! k = Some (Answer len c)
    ∧ chain_view
        {| heap := heap Sample.node;
           chain := map Fetched Sample.chain_long;
           current_transactions := current_transactions Sample.node |} = c
    ∧ (Z.of_nat (length (chain Sample.node)) < len)%Z
    ∧ valid_chain c = Ok true
    ∧ (∀ len' c',
         Answer len' c' ∈ [Answer 2 Sample.chain_alice; Unreachable;
                           Answer 3 Sample.chain_long; Answer 3 Sample.chain_paid] →
         valid_chain c' = Ok true → (len' ≤ len)%Z)
    ∧ (∀ j len' c', j < k →
         [Answer 2 Sample.chain_alice; Unreachable; Answer 3 Sample.chain_long;
          Answer 3 Sample.chain_paid] !! j = Some (Answer len' c') →
         valid_chain c' = Ok true → (len' < len)%Z).
Proof.
  apply (adopted_is_first_longest Sample.node).
  vm_compute. reflexivity.
Defined.

(** C1, as stated, fails: two peers answer with valid two-block chains,
    both longer than the local one-block chain; the chain adopted is the
    one scanned first, not the one scanned last. *)
Lemma tie_adopts_first_scanned :
  valid_chain Sample.chain_alice = Ok true
  ∧ valid_chain Sample.chain_bob = Ok true
  ∧ length Sample.chain_alice = 2
  ∧ length Sample.chain_bob = 2
  ∧ length (chain Sample.node) = 1
  ∧ Sample.chain_alice ≠ Sample.chain_bob
  ∧ ∃ self',
      resolve_conflicts Sample.node
        [Answer 2 Sample.chain_alice; Answer 2 Sample.chain_bob]
      = Ok (self', true)
      ∧ chain_view self' = Sample.chain_alice.
Proof.
  split; [by vm_compute|]. split; [by vm_compute|].
  split; [done|]. split; [done|]. split; [done|]. split.
  - intros Heq. vm_compute in Heq. discriminate.
  - eexists. split; [vm_compute; reflexivity|]. vm_compute. reflexivity.
Qed.

(** C6, as the code has it.  When the validator can judge every fetched
    chain, the call returns; it returns true exactly when some answer
    reports a length above the local one with a chain the validator
    accepts, and then the chain is replaced by such an answer's chain while
    the pool stays; when it returns false the ledger is untouched. *)
Theorem resolve_conflicts_outcome self replies :
  (∀ len c, Answer len c ∈ replies → ∃ b, valid_chain c = Ok b) →
  ∃ self' replaced,
    resolve_conflicts self replies = Ok (self', replaced)
    ∧ (replaced = true
       ↔ ∃ r, r ∈ replies ∧ qualifies (Z.of_nat (length (chain self))) r)
    ∧ (replaced = true →
       ∃ len c,
         Answer len c ∈ replies
         ∧ qualifies (Z.of_nat (length (chain self))) (Answer len c)
         ∧ chain_view self' = c
         ∧ heap self' = heap self
         ∧ current_transactions self' = current_transactions self)
    ∧ (replaced = false → self' = self).
Proof.
  intros Hjudge.
  destruct (scan_total replies Hjudge (Z.of_nat (length (chain self))) None)
    as [res Hscan].
  assert (∃ r, resolve_conflicts self replies = Ok r) as [[self' replaced] Hres].
  { unfold resolve_conflicts. rewrite Hscan; simpl.
    destruct res as [[|??]|]; eauto. }
  exists self', replaced. split; [done|].
  destruct (resolve_conflicts_returns _ _ _ _ Hres)
    as [(-> & -> & Hnone)|(-> & Hheap & Hpool & k & len & c & Hk & Hview & Hq & _)].
  - split; [|done]. split; [done|]. intros (r & Hin & Hq). by destruct (Hnone r).
  - apply list_elem_of_lookup_2 in Hk.
    split; [split; eauto|]. split; [|done]. intros _. by exists len, c.
Qed.

Lemma resolve_conflicts_outcome_witness :
  ∃ self' replaced,
    resolve_conflicts Sample.node
      [Answer 1 Sample.chain_bob; Unreachable; Answer 2 Sample.chain_alice]
    = Ok (self', replaced)
    ∧ (replaced = true
       ↔ ∃ r, r ∈ [Answer 1 Sample.chain_bob; Unreachable;
                   Answer 2 Sample.chain_alice]
              ∧ qualifies (Z.of_nat (length (chain Sample.node))) r)
    ∧ (replaced = true →
       ∃ len c,
         Answer len c ∈ [Answer 1 Sample.chain_bob; Unreachable;
                         Answer 2 Sample.chain_alice]
         ∧ qualifies (Z.of_nat (length (chain Sample.node))) (Answer len c)
         ∧ chain_view self' = c
         ∧ heap self' = heap Sample.node
         ∧ current_transactions self' = current_transactions Sample.node)
    ∧ (replaced = false → self' = Sample.node).
Proof.
  apply (resolve_conflicts_outcome Sample.node).
  intros len c Hin.
  repeat (apply elem_of_cons in Hin as [[=]|Hin]; simplify_eq);
    [eexists; vm_compute; reflexivity..|].
  by apply elem_of_nil in Hin.
Defined.

(** C6, as stated, fails in both directions when a peer misreports its
    length: a one-block chain announced as three blocks long replaces a
    two-block local chain, and a valid two-block chain announced as one
    block long is passed over by a one-block local chain.  A chain the
    validator cannot judge makes the call raise even after a longer valid
    chain was scanned. *)
Lemma resolve_conflicts_trusts_report :
  (length (chain Sample.node_mined) = 2
   ∧ length [Sample.genesis] = 1
   ∧ ∃ self',
       resolve_conflicts Sample.node_mined [Answer 3 [Sample.genesis]]
       = Ok (self', true)
       ∧ chain_view self' = [Sample.genesis])
  ∧ (length (chain Sample.node) = 1
     ∧ length Sample.chain_alice = 2
     ∧ valid_chain Sample.chain_alice = Ok true
     ∧ resolve_conflicts Sample.node [Answer 1 Sample.chain_alice]
       = Ok (Sample.node, false))
  ∧ resolve_conflicts Sample.node [Answer 2 Sample.chain_alice; Answer 3 []]
    = Raise IndexError.
Proof.
  split; [|split].
  - split; [done|]. split; [done|]. eexists. split; by vm_compute.
  - split; [done|]. split; [done|]. split; by vm_compute.
  - by vm_compute.
Qed.

(** C10.  The comparison is on the length a peer reports, not on the
    number of blocks it sends: a one-block chain reported as three blocks
    long passes the validator and replaces a local chain of two blocks. *)
Theorem reported_length_decides :
  ∃ self len c self',
    mined self
    ∧ (Z.of_nat (length (chain self)) < len)%Z
    ∧ length c < length (chain self)
    ∧ valid_chain c = Ok true
    ∧ resolve_conflicts self [Answer len c] = Ok (self', true)
    ∧ chain_view self' = c.
Proof.
  exists Sample.node_mined, 3%Z, [Sample.genesis]. eexists.
  split; [|split; [done|]; split; [simpl; lia|]; split; [done|];
           split; by vm_compute].
  eapply (mined_block Sample.node_paid _ _ None); [|done|by vm_compute].
  apply (mined_transaction Sample.node).
  by apply (mined_init (Sample.clock 17621907305)).
Qed.

(** ** The canonical encoding *)

Lemma json_induction (P : json → Prop) :
  P JNull →
  (∀ b, P (JBool b)) →
  (∀ z, P (JInt z)) →
  (∀ x, P (JFloat x)) →
  (∀ s, P (JStr s)) →
  (∀ l, Forall P l → P (JList l)) →
  (∀ d, Forall (λ kv, P kv.2) d → P (JDict d)) →
  ∀ v, P v.
Proof.
  intros Hnull Hbool Hint Hfloat Hstr Hlist Hdict.
  fix IH 1.
  intros [|b|z|x|s|l|d];
    [apply Hnull|apply Hbool|apply Hint|apply Hfloat|apply Hstr| |].
  - apply Hlist. induction l as [|v l IHl]; constructor; [apply IH|apply IHl].
  - apply Hdict. induction d as [|kv d IHd]; constructor; [apply IH|apply IHd].
Qed.

Lemma str_ltb_lexico (s t : list N) : str_ltb s t = true ↔ lexico s t.
Proof.
  revert t. induction s as [|a s IH]; intros [|b t]; simpl; try done.
  unfold lexico at 1; simpl. unfold prod_lexico; simpl.
  rewrite orb_true_iff, andb_true_iff, N.ltb_lt, N.eqb_eq, IH. done.
Qed.

Lemma key_le_lexico {V} (x y : list N * V) : key_le x y ↔ ¬ lexico y.1 x.1.
Proof. unfold key_le. rewrite <-str_ltb_lexico. by destruct (str_ltb _ _). Qed.

#[local] Instance key_le_trans {V} : Transitive (@key_le V).
Proof.
  intros x y z. rewrite !key_le_lexico. intros Hxy Hyz Hzx.
  destruct (trichotomy lexico x.1 y.1) as [Hlt|[Heq|Hgt]].
  - apply Hyz. by etrans.
  - apply Hyz. by rewrite <-Heq.
  - done.
Qed.

Lemma key_le_antisym {V} (x y : list N * V) : key_le x y → key_le y x → x.1 = y.1.
Proof.
  rewrite !key_le_lexico. intros Hxy Hyx.
  by destruct (trichotomy lexico x.1 y.1) as [?|[?|?]].
Qed.

Lemma insert_item_perm {V} (kv : list N * V) l : insert_item kv l ≡ₚ kv :: l.
Proof.
  induction l as [|kv' l IH]; simpl; [done|].
  destruct (str_ltb kv'.1 kv.1); [|done].
  by rewrite IH, Permutation_swap.
Qed.

Lemma sorted_items_perm {V} (l : list (list N * V)) : sorted_items l ≡ₚ l.
Proof.
  induction l as [|kv l IH]; simpl; [done|].
  by rewrite insert_item_perm, IH.
Qed.

Lemma insert_item_sorted {V} (kv : list N * V) l :
  Sorted key_le l → Sorted key_le (insert_item kv l).
Proof.
  induction 1 as [|kv' l Hl IH Hhd]; simpl.
  { by repeat constructor. }
  destruct (str_ltb kv'.1 kv.1) eqn:Hlt.
  - constructor; [done|].
    assert (Hle : key_le kv' kv).
    { apply key_le_lexico. apply str_ltb_lexico in Hlt.
      intros Hgt. by apply (irreflexivity lexico kv.1); etrans. }
    destruct Hhd as [|kv'' l Hle'']; simpl; [by constructor|].
    destruct (str_ltb kv''.1 kv.1); by constructor.
  - by repeat constructor.
Qed.

Lemma sorted_items_sorted {V} (l : list (list N * V)) : Sorted key_le (sorted_items l).
Proof.
  induction l as [|kv l IH]; simpl; [constructor|by apply insert_item_sorted].
Qed.

Lemma same_key_same_entry {V} (l : list (list N * V)) x y :
  NoDup (l.*1) → x ∈ l → y ∈ l → x.1 = y.1 → x = y.
Proof.
  induction l as [|kv l IH]; intros Hnd Hx Hy Hkey; [by apply elem_of_nil in Hx|].
  apply NoDup_cons in Hnd as [Hnotin Hnd].
  apply elem_of_cons in Hx as [->|Hx]; apply elem_of_cons in Hy as [->|Hy]; auto.
  - destruct Hnotin. rewrite Hkey. by apply list_elem_of_fmap_2.
  - destruct Hnotin. rewrite <-Hkey. by apply list_elem_of_fmap_2.
Qed.

(** With one entry per key, sorting forgets the insertion order. *)
Lemma sorted_items_unique {V} (l1 l2 : list (list N * V)) :
  NoDup (l1.*1) → l1 ≡ₚ l2 → sorted_items l1 = sorted_items l2.
Proof.
  intros Hnd Hperm.
  apply (Sorted_unique_strong key_le); [|apply sorted_items_sorted..|].
  - intros x1 x2 Hx1 Hx2 H12 H21.
    rewrite sorted_items_perm in Hx1, Hx2. rewrite <-Hperm in Hx2.
    eauto using same_key_same_entry, key_le_antisym.
  - by rewrite !sorted_items_perm.
Qed.

Lemma dict_get_Some {V} (d : list (list N * V)) k v :
  dict_get d k = Some v → (k, v) ∈ d.
Proof.
  induction d as [|[k' v'] d IH]; simpl; [done|]. unfold str_eqb.
  case_bool_decide; [intros [= ->]; subst; by left|]. intros. right. auto.
Qed.

Lemma dict_get_elem_of {V} (d : list (list N * V)) k v :
  NoDup (d.*1) → (k, v) ∈ d → dict_get d k = Some v.
Proof.
  induction d as [|[k' v'] d IH]; intros Hnd Hin; [by apply elem_of_nil in Hin|].
  apply NoDup_cons in Hnd as [Hnotin Hnd]. simpl. unfold str_eqb.
  apply elem_of_cons in Hin as [[= -> ->]|Hin].
  - by rewrite bool_decide_eq_true_2.
  - rewrite bool_decide_eq_false_2; [auto|]. intros ->.
    destruct Hnotin. by apply (list_elem_of_fmap_2 fst _ (k, v)).
Qed.

(** Two dicts with the same bindings hold the same entries. *)
Lemma dict_get_ext_perm {V} (d1 d2 : list (list N * V)) :
  NoDup (d1.*1) → NoDup (d2.*1) →
  (∀ k, dict_get d1 k = dict_get d2 k) → d1 ≡ₚ d2.
Proof.
  intros Hnd1 Hnd2 Hget.
  apply NoDup_Permutation; [by eapply NoDup_fmap_1..|].
  intros [k v]. split; intros Hin.
  - apply dict_get_Some. rewrite <-Hget. by apply dict_get_elem_of.
  - apply dict_get_Some. rewrite Hget. by apply dict_get_elem_of.
Qed.

Lemma dict_get_encoded {V W} (f : V → W) (d : list (list N * V)) k :
  dict_get (map (λ kv, (kv.1, f kv.2)) d) k = f <$> dict_get d k.
Proof.
  induction d as [|kv d IH]; simpl; [done|]. by destruct (str_eqb kv.1 k).
Qed.

(** The dict case of the encoder, in the order the library works: sort the
    items by key, then encode each value. *)
Lemma dumps_dict d :
  dumps (JDict d)
  = py "{"
      ++ join (py ", ")
           (map (λ kv, dumps_str kv.1 ++ py ": " ++ dumps kv.2) (sorted_items d))
      ++ py "}".
Proof.
  assert (Hcomm : ∀ l : list (list N * json),
            sorted_items (map (λ kv, (kv.1, dumps kv.2)) l)
            = map (λ kv, (kv.1, dumps kv.2)) (sorted_items l)).
  { induction l as [|kv l IH]; simpl; [done|]. rewrite IH.
    generalize (sorted_items l). intros l'.
    induction l' as [|kv' l' IH']; simpl; [done|].
    destruct (str_ltb kv'.1 kv.1); simpl; [by rewrite IH'|done]. }
  simpl. rewrite Hcomm, map_map. done.
Qed.

Lemma same_value_dumps v1 : ∀ v2, same_value v1 v2 → dumps v1 = dumps v2.
Proof.
  induction v1 as [| | | | |l IH|d IH] using json_induction;
    intros v2 Hsame; inv Hsame; try done.
  - simpl. do 3 f_equal.
    match goal with H : Forall2 _ _ _ |- _ => induction H as [|v v' l l' Hv Hl IHl] end;
      [done|].
    inv IH. simpl. f_equal; auto.
  - simpl. do 4 f_equal.
    match goal with H1 : dict_ok d, H2 : dict_ok _ |- _ =>
      rename H1 into Hok1; rename H2 into Hok2 end.
    match goal with H : ∀ k, option_Forall2 _ _ _ |- _ => rename H into Hget end.
    unfold dict_ok in *.
    apply sorted_items_unique.
    { by rewrite <-list_fmap_compose. }
    apply dict_get_ext_perm; [by rewrite <-list_fmap_compose..|].
    intros k. rewrite !dict_get_encoded. specialize (Hget k).
    destruct (dict_get d k) as [v|] eqn:Hd; inv Hget; [|done].
    simpl. f_equal. apply dict_get_Some in Hd.
    rewrite Forall_forall in IH. by apply (IH _ Hd).
Qed.

(** ** The dump is ASCII *)

Ltac ascii_literal :=
  unfold ascii_only; repeat (constructor; [reflexivity|]); constructor.

Create HintDb ascii.
#[local] Hint Extern 1 (ascii_only (py _)) => ascii_literal : ascii.
#[local] Hint Extern 1 (Forall _ (py _)) => ascii_literal : ascii.

Lemma ascii_only_app s t : ascii_only s → ascii_only t → ascii_only (s ++ t).
Proof. apply Forall_app_2. Qed.

#[local] Hint Resolve ascii_only_app digits_ascii int_str_ascii : ascii.

Lemma join_ascii sep parts :
  ascii_only sep → Forall ascii_only parts → ascii_only (join sep parts).
Proof.
  intros Hsep. induction 1 as [|p parts Hp Hparts IH]; simpl; [constructor|].
  destruct parts; auto with ascii.
Qed.

Lemma hex_ascii n x : ascii_only (SHA256.hex n x).
Proof.
  induction n as [|n IH]; simpl; constructor; [|done].
  unfold SHA256.hex_digit.
  assert (N.land (N.shiftr x (4 * N.of_nat n)) 15 < 16)%N.
  { change 15%N with (N.ones 4). rewrite N.land_ones.
    by apply N.mod_upper_bound. }
  destruct (_ <? 10)%N; lia.
Qed.

Lemma escape_char_ascii c : ascii_only (escape_char c).
Proof.
  unfold escape_char, hex4.
  repeat (destruct (c =? _)%N; [ascii_literal|]).
  destruct ((32 <=? c) && (c <=? 126))%N eqn:Hprintable.
  { apply andb_true_iff in Hprintable as [_ Hhi%N.leb_le].
    constructor; [lia|constructor]. }
  destruct (c <? 65536)%N;
    repeat apply ascii_only_app; try apply hex_ascii; ascii_literal.
Qed.

Lemma dumps_str_ascii s : ascii_only (dumps_str s).
Proof.
  unfold dumps_str. repeat apply ascii_only_app; try ascii_literal.
  apply Forall_concat, Forall_forall. intros x (c & -> & _)%list_elem_of_fmap.
  apply escape_char_ascii.
Qed.

Lemma float_repr_ascii x : ascii_only (float_repr x).
Proof.
  destruct x as [|[]|neg m e]; simpl; try ascii_literal.
  unfold float_finite_repr.
  assert (Hzero : ∀ n, ascii_only (replicate n 48%N))
    by (intros; by apply Forall_replicate).
  assert (Htake : ∀ n m, ascii_only (take n (digits m)))
    by (intros; apply Forall_take, digits_ascii).
  assert (Hdrop : ∀ n m, ascii_only (drop n (digits m)))
    by (intros; apply Forall_drop, digits_ascii).
  repeat match goal with
         | |- context [if ?b then _ else _] => destruct b
         end;
    repeat apply ascii_only_app; auto with ascii; constructor.
Qed.

Lemma dumps_float_ascii x : ascii_only (dumps_float x).
Proof.
  destruct x as [|[]|neg m e]; try ascii_literal. apply float_repr_ascii.
Qed.

Lemma dumps_ascii v : ascii_only (dumps v).
Proof.
  induction v as [|b|z|x|s|l IH|d IH] using json_induction.
  - ascii_literal.
  - destruct b; ascii_literal.
  - apply int_str_ascii.
  - apply dumps_float_ascii.
  - apply dumps_str_ascii.
  - change (ascii_only (py "[" ++ join (py ", ") (map dumps l) ++ py "]")).
    repeat apply ascii_only_app; try ascii_literal.
    apply join_ascii; [ascii_literal|]. by apply Forall_fmap.
  - rewrite dumps_dict. repeat apply ascii_only_app; try ascii_literal.
    apply join_ascii; [ascii_literal|]. apply Forall_forall. intros x Hx.
    apply list_elem_of_In, in_map_iff in Hx as (kv & <- & Hin).
    apply list_elem_of_In in Hin. rewrite sorted_items_perm in Hin.
    rewrite Forall_forall in IH. specialize (IH _ Hin).
    apply ascii_only_app; [apply dumps_str_ascii|].
    apply ascii_only_app; [ascii_literal|exact IH].
Qed.

(** So [encode] returns the dump unchanged and [hash] is the digest of
    the dump. *)
Lemma encode_dumps v : encode (dumps v) = Ok (dumps v).
Proof. apply encode_ascii, dumps_ascii. Qed.

Lemma hash_digest block : hash block = SHA256.hexdigest (dumps (JDict block)).
Proof. unfold hash. by rewrite encode_dumps. Qed.

(** C9.  The fingerprint is a function of the block's bindings alone:
    nothing but the block enters [hash], so repeated calls agree, and two
    blocks equal as field-to-value maps (nested values included) have the
    same fingerprint whatever the order their fields were inserted in. *)
Theorem hash_canonical (b1 b2 : list (list N * json)) :
  same_value (JDict b1) (JDict b2) → hash b1 = hash b2.
Proof. intros Hsame. unfold hash. by rewrite (same_value_dumps _ _ Hsame). Qed.

Lemma hash_canonical_witness :
  hash Sample.genesis = hash Sample.genesis_reordered.
Proof.
  apply (hash_canonical Sample.genesis Sample.genesis_reordered).
  constructor.
  - unfold dict_ok. vm_compute. repeat (constructor; [by (rewrite ?elem_of_cons, elem_of_nil; intuition discriminate)|]). constructor.
  - unfold dict_ok. vm_compute. repeat (constructor; [by (rewrite ?elem_of_cons, elem_of_nil; intuition discriminate)|]). constructor.
  - intros k. unfold Sample.genesis, Sample.genesis_reordered; simpl. unfold str_eqb.
    repeat case_bool_decide; simplify_eq; repeat constructor.
Defined.

(** ** The heap: what sharing the transaction lists allows *)

Lemma ledger_ok_init now self : Blockchain_init now = Ok self → ledger_ok self.
Proof.
  intros [= <-]. split; simpl.
  - lia.
  - intros b a ->%list_elem_of_singleton [= <-]. lia.
  - by intros b ->%list_elem_of_singleton.
Qed.

Lemma ledger_ok_new_transaction self sender recipient amount :
  ledger_ok self → ledger_ok (new_transaction self sender recipient amount).1.
Proof.
  intros [Hpool Halloc Hpriv]. split; simpl; rewrite ?length_alter; auto.
Qed.

Lemma new_block_inv self now proof previous_hash self' b :
  new_block self now proof previous_hash = Ok (self', b) →
  ∃ h,
    b = Forged (Z.of_nat (length (chain self)) + 1) now
               (current_transactions self) proof h
    ∧ self' = {| heap := heap self ++ [[]];
                 chain := chain self ++ [b];
                 current_transactions := length (heap self) |}
    ∧ match previous_hash with
      | Some (c :: s) => h = c :: s
      | _ => ∃ l, last (chain self) = Some l ∧ h = hash (view (heap self) l)
      end.
Proof.
  unfold new_block. intros (h & Hh & [= <- <-])%bind_Ok.
  exists h. split; [done|]. split; [done|].
  destruct previous_hash as [[|c s]|]; [|by simplify_eq|];
    (destruct (last (chain self)) as [l|]; [|done]); simplify_eq; eauto.
Qed.

Lemma ledger_ok_new_block self now proof previous_hash self' b :
  ledger_ok self →
  new_block self now proof previous_hash = Ok (self', b) →
  ledger_ok self'.
Proof.
  intros [Hpool Halloc Hpriv] (h & -> & -> & _)%new_block_inv.
  split; simpl; rewrite ?length_app; simpl.
  - lia.
  - intros b a [Hin|Hb%list_elem_of_singleton]%elem_of_app Ha.
    + specialize (Halloc _ _ Hin Ha). lia.
    + subst b. simpl in Ha. simplify_eq. lia.
  - intros b [Hin|Hb%list_elem_of_singleton]%elem_of_app Ha.
    + specialize (Halloc _ _ Hin Ha). lia.
    + subst b. simpl in Ha. simplify_eq. lia.
Qed.

Lemma ledger_ok_resolve_conflicts self replies self' replaced :
  ledger_ok self →
  resolve_conflicts self replies = Ok (self', replaced) →
  ledger_ok self'.
Proof.
  intros Hok. unfold resolve_conflicts. intros (res & _ & Hres)%bind_Ok.
  destruct res as [[|d c]|]; simplify_eq; [done| |done].
  destruct Hok as [Hpool _ _]. split; [done|..].
  - intros b a Hin Ha. change (Fetched d :: map Fetched c) with (Fetched <$> d :: c) in Hin.
    apply list_elem_of_fmap in Hin as (? & -> & _). done.
  - intros b Hin Ha. change (Fetched d :: map Fetched c) with (Fetched <$> d :: c) in Hin.
    apply list_elem_of_fmap in Hin as (? & -> & _). done.
Qed.

Lemma ledger_ok_step self c : ledger_ok self → ledger_ok (step self c).
Proof.
  intros Hok. destruct c as [sender recipient amount|now proof ph|replies]; simpl.
  - by apply ledger_ok_new_transaction.
  - destruct (new_block self now proof ph) as [[self' b]|] eqn:Hnb; [|done].
    by eapply ledger_ok_new_block.
  - destruct (resolve_conflicts self replies) as [[self' r]|] eqn:Hr; [|done].
    by eapply ledger_ok_resolve_conflicts.
Qed.

(** A block's dict changes only if its own transaction list does. *)
Lemma view_ext h h' b :
  (∀ a, block_addr b = Some a → h' !! a = h !! a) → view h' b = view h b.
Proof. destruct b as [index ts a p ph|d]; simpl; [|done]. intros ->; done. Qed.

(** Recording a transaction leaves every block of the chain as it was. *)
Lemma chain_view_new_transaction self sender recipient amount :
  ledger_ok self →
  chain_view (new_transaction self sender recipient amount).1 = chain_view self.
Proof.
  intros [_ _ Hpriv]. unfold chain_view; simpl. apply map_ext_in.
  intros b Hin%list_elem_of_In. apply view_ext. intros a Ha.
  apply list_lookup_alter_ne. intros Heq. apply (Hpriv b Hin). by rewrite Heq.
Qed.

(** A new block takes the pool as its transactions and leaves the earlier
    blocks as they were. *)
Lemma chain_view_new_block self now proof previous_hash self' b :
  ledger_ok self →
  new_block self now proof previous_hash = Ok (self', b) →
  chain_view self' = chain_view self ++ [view (heap self') b]
  ∧ block_transactions (view (heap self') b) = pool self
  ∧ pool self' = [].
Proof.
  intros [Hpool Halloc _] (h & -> & -> & _)%new_block_inv.
  unfold chain_view, pool; simpl. split; [|split].
  - rewrite map_app; simpl. f_equal. apply map_ext_in.
    intros b Hin%list_elem_of_In. apply view_ext. intros a Ha.
    apply lookup_app_l. eauto.
  - unfold block_transactions; simpl. by rewrite lookup_app_l.
  - by rewrite lookup_app_r, Nat.sub_diag by lia.
Qed.

(** ** Linking *)

Lemma last_map {A B} (f : A → B) (l : list A) : last (map f l) = f <$> last l.
Proof. induction l as [|x [|y l] IH]; simpl in *; done. Qed.

Lemma mined_ledger_ok self : mined self → ledger_ok self.
Proof.
  induction 1; eauto using ledger_ok_init, ledger_ok_new_transaction,
    ledger_ok_new_block.
Qed.

(** C3, as the code has it.  In a chain built from construction by calls
    of [new_block] (with [new_transaction] calls in between or not) whose
    previous-hash argument is left out, empty, or the hash of the block
    that is last at the call, every block after the first carries as
    previous hash the hash of the block before it. *)
Theorem mined_chain_linked self :
  mined self →
  ∀ i prev cur,
    chain_view self !! i = Some prev →
    chain_view self !! S i = Some cur →
    dict_get cur (py "previous_hash") = Some (JStr (hash prev)).
Proof.
  induction 1 as [now self Hinit|self sender recipient amount Hmined IH
                 |self now proof ph self' b Hmined IH Hlinks Hnb].
  - injection Hinit as <-. by intros [|i] prev cur.
  - rewrite chain_view_new_transaction by by apply mined_ledger_ok. done.
  - pose proof (mined_ledger_ok _ Hmined) as Hok.
    destruct (chain_view_new_block _ _ _ _ _ _ Hok Hnb) as (Hview & _ & _).
    destruct (new_block_inv _ _ _ _ _ _ Hnb) as (h & -> & -> & Hh).
    rewrite Hview. intros i prev cur Hprev Hcur.
    assert (Hlen : length (chain_view self) = length (chain self))
      by (unfold chain_view; apply length_map).
    destruct (decide (S i < length (chain_view self))) as [Hlt|Hge].
    { rewrite lookup_app_l in Hprev, Hcur by lia. eauto. }
    apply lookup_lt_Some in Hcur as Hi. rewrite length_app in Hi; simpl in Hi.
    assert (S i = length (chain_view self)) as Hi' by lia.
    rewrite lookup_app_l in Hprev by lia.
    rewrite lookup_app_r, Hi', Nat.sub_diag in Hcur by lia. simpl in Hcur.
    injection Hcur as <-.
    change (Some (JStr h) = Some (JStr (hash prev))). do 2 f_equal.
    assert (Hlast : last (chain_view self) = Some prev).
    { rewrite last_lookup. rewrite <-Hi'. done. }
    unfold chain_view in Hlast. rewrite last_map in Hlast.
    destruct (last (chain self)) as [l|] eqn:Hl; [|done].
    simpl in Hlast. injection Hlast as <-.
    destruct ph as [[|c s]|]; simpl in Hlinks.
    + destruct Hh as (l' & Hl' & ->). by simplify_eq.
    + destruct Hlinks as (l' & Hl' & Heq). simplify_eq. by rewrite Heq.
    + destruct Hh as (l' & Hl' & ->). by simplify_eq.
Qed.

Lemma mined_chain_linked_witness :
  ∃ prev cur,
    chain_view Sample.node_mined !! 0 = Some prev
    ∧ chain_view Sample.node_mined !! 1 = Some cur
    ∧ dict_get cur (py "previous_hash") = Some (JStr (hash prev)).
Proof.
  eexists _, _. split; [reflexivity|]. split; [reflexivity|].
  apply (mined_chain_linked Sample.node_mined) with (i := 0); [|reflexivity..].
  eapply (mined_block Sample.node_paid _ _ None);
    [|simpl; exact I|vm_compute; reflexivity].
  apply (mined_transaction Sample.node).
  apply (mined_init (Sample.clock 17621907305)). reflexivity.
Defined.

(** C3, as stated, fails: [new_block] stores whatever previous hash it is
    given.  Called on a fresh ledger with "abc", it appends a block whose
    previous hash is "abc", which is not the hash of the genesis block. *)
Lemma supplied_hash_breaks_link :
  ∃ self b prev cur,
    new_block Sample.node (Sample.clock 17621907900) 35293 (Some (py "abc"))
    = Ok (self, b)
    ∧ chain_view self !! 0 = Some prev
    ∧ chain_view self !! 1 = Some cur
    ∧ dict_get cur (py "previous_hash") = Some (JStr (py "abc"))
    ∧ hash prev ≠ py "abc".
Proof.
  do 4 eexists. split; [reflexivity|]. split; [reflexivity|].
  split; [reflexivity|]. split; [reflexivity|]. by vm_compute.
Qed.

(** ** The pool against the chain *)

Lemma embedded_new_transaction self sender recipient amount :
  ledger_ok self →
  embedded (new_transaction self sender recipient amount).1 = embedded self.
Proof. intros Hok. unfold embedded. by rewrite chain_view_new_transaction. Qed.

Lemma embedded_new_block self now proof previous_hash self' b :
  ledger_ok self →
  new_block self now proof previous_hash = Ok (self', b) →
  embedded self' = embedded self ++ pool self.
Proof.
  intros Hok Hnb.
  destruct (chain_view_new_block _ _ _ _ _ _ Hok Hnb) as (Hview & Htxns & _).
  unfold embedded. rewrite Hview, map_app, concat_app; simpl.
  by rewrite Htxns, app_nil_r.
Qed.

(** Local calls keep the books: what was recorded is what the blocks
    carry followed by what is pending. *)
Lemma recorded_step self c :
  ledger_ok self →
  is_local c = true →
  embedded (step self c) ++ pool (step self c)
  = (embedded self ++ pool self) ++ recorded [c].
Proof.
  intros Hok Hc. unfold recorded.
  destruct c as [sender recipient amount|now proof ph|replies]; [| |done];
    cbn [step map concat]; rewrite app_nil_r.
  - rewrite embedded_new_transaction, pool_new_transaction
      by (done || apply (pool_allocated _ Hok)).
    by rewrite (assoc_L (++)).
  - destruct (new_block self now proof ph) as [[self' b]|] eqn:Hnb; [|done].
    cbn [fst].
    destruct (chain_view_new_block _ _ _ _ _ _ Hok Hnb) as (_ & _ & ->).
    by rewrite (embedded_new_block _ _ _ _ _ _ Hok Hnb), app_nil_r.
Qed.

Lemma recorded_cons c calls : recorded (c :: calls) = recorded [c] ++ recorded calls.
Proof. unfold recorded; simpl. by rewrite app_nil_r. Qed.

Lemma recorded_run calls :
  Forall (λ c, is_local c = true) calls →
  ∀ self before,
    ledger_ok self →
    before = embedded self ++ pool self →
    before ++ recorded calls
    = embedded (run self calls) ++ pool (run self calls).
Proof.
  induction 1 as [|c calls Hc _ IH]; intros self before Hok Hbefore.
  { unfold recorded; simpl. by rewrite app_nil_r. }
  rewrite recorded_cons, (assoc_L (++)).
  change (run self (c :: calls)) with (run (step self c) calls).
  apply IH; [by apply ledger_ok_step|].
  by rewrite recorded_step, Hbefore.
Qed.

(** C4, as the code has it.  After any sequence of [new_transaction] and
    [new_block] calls on a fresh ledger, the recorded transactions are, in
    order, those carried by the blocks of the chain followed by the pending
    pool: the pool is exactly what has been recorded and not yet mined.
    Replacing the chain does not touch the pool. *)
Theorem pool_is_unmined now self0 calls :
  Blockchain_init now = Ok self0 →
  Forall (λ c, is_local c = true) calls →
  recorded calls = embedded (run self0 calls) ++ pool (run self0 calls)
  ∧ ∀ replies,
      pool (step (run self0 calls) (ResolveConflicts replies))
      = pool (run self0 calls).
Proof.
  intros Hinit Hlocal. split.
  - apply (recorded_run calls Hlocal self0 []); [by eapply ledger_ok_init|].
    by injection Hinit as <-.
  - intros replies. simpl.
    destruct (resolve_conflicts _ replies) as [[self' replaced]|] eqn:Hr; [|done].
    destruct (resolve_conflicts_returns _ _ _ _ Hr)
      as [(_ & -> & _)|(_ & Hheap & Hcur & _)]; [done|].
    unfold pool; simpl. by rewrite Hheap, Hcur.
Qed.

Lemma pool_is_unmined_witness :
  let calls := [RecordTransaction (py "carol") (py "dave") (JInt 7);
                MineBlock (Sample.clock 17621907900) 35293 None;
                RecordTransaction (py "dave") (py "carol") (JInt 2)] in
  recorded calls = embedded (run Sample.node calls) ++ pool (run Sample.node calls)
  ∧ ∀ replies,
      pool (step (run Sample.node calls) (ResolveConflicts replies))
      = pool (run Sample.node calls).
Proof.
  apply (pool_is_unmined (Sample.clock 17621907305) Sample.node).
  - reflexivity.
  - repeat constructor.
Defined.

(** C4, as stated, fails once a chain is adopted.  A pending transaction
    that the adopted chain already carries stays in the pool; a transaction
    mined into a block that the adopted chain drops is in no block and not
    in the pool either. *)
Lemma pool_ignores_replacement :
  (let calls := [RecordTransaction (py "carol") (py "dave") (JInt 7);
                 ResolveConflicts [Answer 2 Sample.chain_paid]] in
   recorded calls = [Sample.payment]
   ∧ embedded (run Sample.node calls) = [Sample.payment]
   ∧ pool (run Sample.node calls) = [Sample.payment])
  ∧ (let calls := [RecordTransaction (py "carol") (py "dave") (JInt 7);
                   MineBlock (Sample.clock 17621907900) 35293 None;
                   ResolveConflicts [Answer 3 Sample.chain_long]] in
     recorded calls = [Sample.payment]
     ∧ embedded (run Sample.node calls) = [Sample.reward "alice"]
     ∧ Sample.reward "alice" ≠ Sample.payment
     ∧ pool (run Sample.node calls) = []).
Proof.
  split.
  - split; [done|]. split; by vm_compute.
  - split; [done|]. split; [by vm_compute|]. split; [|by vm_compute].
    intros Heq. vm_compute in Heq. discriminate.
Qed.

(** * Further properties of the code *)

(** ** Digests *)

Lemma hex_length n x : length (SHA256.hex n x) = n.
Proof. induction n as [|n IH]; simpl; [done|]. by rewrite IH. Qed.

Lemma hex_chars n x : Forall hex_char (SHA256.hex n x).
Proof.
  induction n as [|n IH]; simpl; constructor; [|done].
  unfold SHA256.hex_digit, hex_char.
  assert (N.land (N.shiftr x (4 * N.of_nat n)) 15 < 16)%N.
  { change 15%N with (N.ones 4). rewrite N.land_ones.
    by apply N.mod_upper_bound. }
  destruct (_ <? 10)%N eqn:Hlt; [apply N.ltb_lt in Hlt|apply N.ltb_ge in Hlt]; lia.
Qed.

Lemma hexdigest_shape msg :
  length (SHA256.hexdigest msg) = 64 ∧ Forall hex_char (SHA256.hexdigest msg).
Proof.
  unfold SHA256.hexdigest, SHA256.digest_words. cbv zeta.
  generalize (fold_left SHA256.compress
                (SHA256.blocks
                   (length (SHA256.be_words (length (SHA256.pad msg)) (SHA256.pad msg)))
                   (SHA256.be_words (length (SHA256.pad msg)) (SHA256.pad msg)))
                SHA256.init).
  intros st. cbn [map concat]. split.
  - by rewrite !length_app, !hex_length.
  - repeat (apply Forall_app_2; [apply hex_chars|]). constructor.
Qed.

(** X1.  The fingerprint of any block is 64 lowercase hexadecimal digits;
    in particular it is never empty, so [previous_hash or hash(...)] always
    ends up with a non-empty string, and it is never the sentinel "1". *)
Theorem hash_is_hex (b : list (list N * json)) :
  length (hash b) = 64 ∧ Forall hex_char (hash b) ∧ hash b ≠ [] ∧ hash b ≠ py "1".
Proof.
  rewrite hash_digest.
  destruct (hexdigest_shape (dumps (JDict b))) as [Hlen Hhex].
  split; [done|]. split; [done|].
  split; intros Heq; by rewrite Heq in Hlen.
Qed.


(** ** Difficulty *)

Lemma take_replicate_pred {A} d (h : list A) x :
  take (S d) h = replicate (S d) x → take d h = replicate d x.
Proof.
  intros Heq.
  assert (take d (take (S d) h) = take d (replicate (S d) x)) as Ht by by rewrite Heq.
  rewrite take_take, take_replicate in Ht.
  by rewrite !Nat.min_l in Ht by lia.
Qed.

Lemma Ok_inj {A} (a b : A) : Ok a = Ok b → a = b.
Proof. by intros [= ->]. Qed.

Lemma valid_proof_pred last_proof proof last_hash (d : nat) :
  valid_proof last_proof proof last_hash (Some (replicate (S d) 48%N)) = Ok true →
  valid_proof last_proof proof last_hash (Some (replicate d 48%N)) = Ok true.
Proof.
  unfold valid_proof. cbn [default].
  destruct (format last_proof) as [s1|]; [|done].
  destruct (format proof) as [s2|]; [|done].
  destruct (format last_hash) as [s3|]; [|done]. cbn [mbind result_bind].
  destruct (encode _) as [guess|]; [|done]. cbn [mbind result_bind].
  unfold id. rewrite !length_replicate. unfold str_eqb.
  intros Heq%Ok_inj. f_equal.
  apply bool_decide_eq_true in Heq. apply bool_decide_eq_true.
  exact (take_replicate_pred _ _ _ Heq).
Qed.

(** X2.  A proof that passes at one more leading zero passes as it is:
    raising the difficulty only removes valid proofs. *)
Theorem valid_proof_easier last_proof proof last_hash (d : nat) :
  valid_proof last_proof proof last_hash (Some (replicate (S d) 48%N)) = Ok true →
  valid_proof last_proof proof last_hash (Some (replicate d 48%N)) = Ok true.
Proof. apply valid_proof_pred. Qed.

Lemma valid_proof_easier_witness :
  valid_proof (JInt 100) (JInt 378) (JStr (py "1")) (Some (replicate 1 48%N))
  = Ok true.
Proof.
  apply (valid_proof_easier (JInt 100) (JInt 378) (JStr (py "1")) 1).
  vm_compute. reflexivity.
Defined.

(** ** The search *)

Lemma proof_of_work_loop_search fuel target last_proof last_hash proof :
  proof_of_work_loop fuel target last_proof last_hash proof
  = proof_of_work_search fuel target (JInt last_proof) last_hash proof.
Proof.
  revert proof. induction fuel as [|fuel IH]; intros proof; simpl; [done|].
  by rewrite IH.
Qed.

(** What the search returns passed the check and nothing before it did. *)
Lemma proof_of_work_search_sound fuel target last_proof last_hash :
  ∀ start p,
    proof_of_work_search fuel target last_proof last_hash start = Some (Ok p) →
    (start ≤ p)%Z
    ∧ valid_proof last_proof (JInt p) (JStr last_hash) (Some target) = Ok true
    ∧ ∀ q, (start ≤ q < p)%Z →
        valid_proof last_proof (JInt q) (JStr last_hash) (Some target) = Ok false.
Proof.
  induction fuel as [|fuel IH]; intros start p Hsearch; simpl in Hsearch; [done|].
  destruct (valid_proof last_proof (JInt start) _ _) as [[|]|] eqn:Hstart;
    simplify_eq.
  - split; [lia|]. split; [done|]. lia.
  - destruct (IH _ _ Hsearch) as (Hle & Hvalid & Hmin).
    split; [lia|]. split; [done|]. intros q Hq.
    destruct (decide (q = start)) as [->|]; [done|]. apply Hmin. lia.
Qed.

(** A larger budget does not change what the search returns. *)
Lemma proof_of_work_search_more fuel target last_proof last_hash :
  ∀ start r fuel',
    proof_of_work_search fuel target last_proof last_hash start = Some r →
    fuel ≤ fuel' →
    proof_of_work_search fuel' target last_proof last_hash start = Some r.
Proof.
  induction fuel as [|fuel IH]; intros start r fuel' Hsearch Hle; [done|].
  destruct fuel' as [|fuel']; [lia|]. simpl in *.
  destruct (valid_proof last_proof (JInt start) _ _) as [[|]|]; [done| |done].
  apply (IH _ _ _ Hsearch). lia.
Qed.

(** X3.  Whatever the budget, a proof returned by [proof_of_work] is
    non-negative, passes [valid_proof] with the default target (the one the
    chain validator uses), is the least such, and is what every larger
    budget returns. *)
Theorem proof_of_work_sound fuel last_proof last_hash p :
  proof_of_work fuel last_proof last_hash = Some (Ok p) →
  (0 ≤ p)%Z
  ∧ valid_proof (JInt last_proof) (JInt p) (JStr last_hash) None = Ok true
  ∧ (∀ q, (0 ≤ q < p)%Z →
       valid_proof (JInt last_proof) (JInt q) (JStr last_hash) None = Ok false)
  ∧ ∀ fuel', fuel ≤ fuel' →
      proof_of_work fuel' last_proof last_hash = Some (Ok p).
Proof.
  unfold proof_of_work, proof_of_work_at. rewrite proof_of_work_loop_search.
  intros Hsearch.
  destruct (proof_of_work_search_sound _ _ _ _ _ _ Hsearch) as (Hle & Hvalid & Hmin).
  split; [done|]. split; [done|]. split; [done|].
  intros fuel' Hfuel. rewrite proof_of_work_loop_search.
  by apply (proof_of_work_search_more fuel).
Qed.

Lemma proof_of_work_sound_witness :
  (0 ≤ 16)%Z
  ∧ valid_proof (JInt 100) (JInt 16)
      (JStr (hash (view (heap Sample.miner) (Forged 1 (Sample.clock 17621910969) 0 100 (py "1")))))
      None = Ok true
  ∧ (∀ q, (0 ≤ q < 16)%Z →
       valid_proof (JInt 100) (JInt q)
         (JStr (hash (view (heap Sample.miner) (Forged 1 (Sample.clock 17621910969) 0 100 (py "1")))))
         None = Ok false)
  ∧ ∀ fuel', 20 ≤ fuel' →
      proof_of_work fuel' 100
        (hash (view (heap Sample.miner) (Forged 1 (Sample.clock 17621910969) 0 100 (py "1"))))
      = Some (Ok 16%Z).
Proof.
  apply (proof_of_work_sound 20 100).
  vm_compute. reflexivity.
Defined.

(** X4.  The search result cannot go down when the difficulty goes up:
    the proof found for one more leading zero is at least the proof found
    for the difficulty below. *)
Theorem proof_of_work_harder (d fuel fuel' : nat) last_proof last_hash p p' :
  proof_of_work_at d fuel last_proof last_hash = Some (Ok p) →
  proof_of_work_at (S d) fuel' last_proof last_hash = Some (Ok p') →
  (p ≤ p')%Z.
Proof.
  unfold proof_of_work_at. rewrite !proof_of_work_loop_search.
  intros (_ & _ & Hmin)%proof_of_work_search_sound
         (Hle & Hvalid & _)%proof_of_work_search_sound.
  apply valid_proof_pred in Hvalid.
  destruct (decide (p ≤ p')%Z) as [|Hgt]; [done|].
  rewrite Hmin in Hvalid by lia. done.
Qed.

Lemma proof_of_work_harder_witness : (15 ≤ 378)%Z.
Proof.
  apply (proof_of_work_harder 1 20 400 100 (py "1")); vm_compute; reflexivity.
Defined.

(** ** More on the chain validator *)

Lemma link_check_true prev cur :
  link_check prev cur = Ok true →
  dict_get cur (py "previous_hash") = Some (JStr (hash prev)).
Proof.
  unfold link_check, getitem.
  destruct (dict_get cur (py "previous_hash")) as [v|]; [|done].
  cbn [mbind result_bind]. intros Hne%Ok_inj.
  destruct v as [| | | |s| |]; try discriminate Hne.
  unfold ne_str, str_eqb in Hne. rewrite negb_involutive in Hne.
  apply bool_decide_eq_true in Hne. by rewrite Hne.
Qed.

Lemma valid_chain_is_linked (c : list (list (list N * json))) :
  valid_chain c = Ok true → linked c.
Proof.
  destruct c as [|last_block rest]; [done|]. cbn [valid_chain].
  intros Hvalid i prev cur Hprev Hcur.
  destruct (proj1 (valid_chain_loop_true _ _) Hvalid i prev cur Hprev Hcur)
    as [Hlink _].
  by apply link_check_true.
Qed.

(** X5.  The validator never accepts a chain with a broken link: in an
    accepted chain every block after the first names, as a string, the
    hash of the block before it. *)
Theorem valid_chain_linked (c : list (list (list N * json))) :
  valid_chain c = Ok true → linked c.
Proof. apply valid_chain_is_linked. Qed.

Lemma valid_chain_linked_witness :
  ∃ prev cur,
    Sample.chain_long !! 1 = Some prev
    ∧ Sample.chain_long !! 2 = Some cur
    ∧ dict_get cur (py "previous_hash") = Some (JStr (hash prev)).
Proof.
  eexists _, _. split; [reflexivity|]. split; [reflexivity|].
  apply (valid_chain_linked Sample.chain_long) with (i := 1); [|reflexivity..].
  vm_compute. reflexivity.
Defined.

Lemma valid_chain_loop_app last_block r1 b r2 :
  valid_chain_loop last_block (r1 ++ b :: r2) = Ok true
  ↔ valid_chain_loop last_block (r1 ++ [b]) = Ok true
    ∧ valid_chain_loop b r2 = Ok true.
Proof.
  revert last_block. induction r1 as [|x r1 IH]; intros last_block.
  - cbn [app]. rewrite !valid_chain_loop_cons.
    destruct (link_check last_block b) as [[|]|]; cbn [mbind result_bind negb];
      [|by split; [|intros []]..].
    destruct (work_check last_block b) as [[|]|]; cbn [mbind result_bind negb];
      [|by split; [|intros []]..].
    cbn [valid_chain_loop]. by split; [|intros []].
  - cbn [app]. rewrite !valid_chain_loop_cons.
    destruct (link_check last_block x) as [[|]|]; cbn [mbind result_bind negb];
      [|by split; [|intros []]..].
    destruct (work_check last_block x) as [[|]|]; cbn [mbind result_bind negb];
      [|by split; [|intros []]..].
    apply IH.
Qed.

Lemma valid_chain_split c1 b c2 :
  valid_chain (c1 ++ b :: c2) = Ok true
  ↔ valid_chain (c1 ++ [b]) = Ok true ∧ valid_chain (b :: c2) = Ok true.
Proof.
  destruct c1 as [|first c1]; cbn [app valid_chain].
  - cbn [valid_chain_loop]. by split; [|intros []].
  - apply valid_chain_loop_app.
Qed.

Lemma valid_chain_snoc c l b :
  valid_chain (c ++ [l; b]) = Ok true
  ↔ valid_chain (c ++ [l]) = Ok true ∧ pair_passes l b.
Proof.
  rewrite (valid_chain_split c l [b]).
  cbn [valid_chain]. rewrite valid_chain_loop_cons. unfold pair_passes.
  destruct (link_check l b) as [[|]|]; cbn [mbind result_bind negb];
    [|intuition congruence..].
  destruct (work_check l b) as [[|]|]; cbn [mbind result_bind negb];
    [|intuition congruence..].
  cbn [valid_chain_loop]. intuition congruence.
Qed.

(** X6.  Validity is local: a chain is accepted exactly when the part up
    to any of its blocks and the part from that block on are both
    accepted; so appending a block to an accepted chain gives an accepted
    chain exactly when the new pair passes the two checks. *)
Theorem valid_chain_splits :
  (∀ c1 b c2,
     valid_chain (c1 ++ b :: c2) = Ok true
     ↔ valid_chain (c1 ++ [b]) = Ok true ∧ valid_chain (b :: c2) = Ok true)
  ∧ (∀ c l b,
       valid_chain (c ++ [l; b]) = Ok true
       ↔ valid_chain (c ++ [l]) = Ok true ∧ pair_passes l b).
Proof. split; [apply valid_chain_split|apply valid_chain_snoc]. Qed.





(** ** More on conflict resolution *)

Lemma scan_filter n replies :
  ∀ max_length new_chain,
    (n ≤ max_length)%Z →
    scan replies max_length new_chain
    = scan (List.filter (exceeds n) replies) max_length new_chain.
Proof.
  induction replies as [|[|len c] replies IH]; intros m nc Hle; [done|..].
  - cbn [List.filter exceeds scan]. by apply IH.
  - cbn [List.filter exceeds]. destruct (n <? len)%Z eqn:Hn.
    + apply Z.ltb_lt in Hn. cbn [scan].
      destruct (m <? len)%Z; [|by apply IH].
      destruct (valid_chain c) as [[|]|]; cbn [mbind result_bind]; [| |done].
      * apply IH. lia.
      * by apply IH.
    + apply Z.ltb_ge in Hn. cbn [scan].
      replace (m <? len)%Z with false by (symmetry; apply Z.ltb_ge; lia).
      by apply IH.
Qed.

(** X8.  Peers that cannot be reached, and answers that do not report
    more blocks than the local chain has, play no part: the call behaves,
    exceptions included, as if only the other answers had been scanned. *)
Theorem resolve_conflicts_skips self replies :
  resolve_conflicts self replies
  = resolve_conflicts self
      (List.filter (exceeds (Z.of_nat (length (chain self)))) replies).
Proof. unfold resolve_conflicts. by rewrite <-scan_filter. Qed.

(** X9.  The order in which the peers are scanned matters for ties only:
    two scans of the same answers in different orders that both return
    agree on whether the chain is replaced, and adopt chains that were
    reported with the same length. *)
Theorem resolve_conflicts_order self replies replies' self1 r1 self2 r2 :
  replies ≡ₚ replies' →
  resolve_conflicts self replies = Ok (self1, r1) →
  resolve_conflicts self replies' = Ok (self2, r2) →
  r1 = r2
  ∧ (r1 = false → self1 = self ∧ self2 = self)
  ∧ (r1 = true →
     ∃ len c1 c2,
       Answer len c1 ∈ replies ∧ Answer len c2 ∈ replies
       ∧ valid_chain c1 = Ok true ∧ valid_chain c2 = Ok true
       ∧ chain_view self1 = c1 ∧ chain_view self2 = c2).
Proof.
  intros Hperm H1 H2.
  destruct (resolve_conflicts_returns _ _ _ _ H1)
    as [(-> & -> & Hnone1)
       |(-> & _ & _ & k1 & len1 & c1 & Hk1 & Hv1 & [Hlt1 Hq1] & Hmax1 & _)];
  destruct (resolve_conflicts_returns _ _ _ _ H2)
    as [(-> & -> & Hnone2)
       |(-> & _ & _ & k2 & len2 & c2 & Hk2 & Hv2 & [Hlt2 Hq2] & Hmax2 & _)].
  - by split; [|split].
  - apply list_elem_of_lookup_2 in Hk2. rewrite <-Hperm in Hk2.
    by destruct (Hnone1 _ Hk2).
  - apply list_elem_of_lookup_2 in Hk1. rewrite Hperm in Hk1.
    by destruct (Hnone2 _ Hk1).
  - apply list_elem_of_lookup_2 in Hk1, Hk2.
    assert (len1 = len2) as <-.
    { pose proof (Hmax1 len2 c2) as Hle1. pose proof (Hmax2 len1 c1) as Hle2.
      rewrite <-Hperm in Hk2. rewrite Hperm in Hk1.
      specialize (Hle2 Hk1 Hq1). rewrite <-Hperm in Hk1.
      specialize (Hle1 Hk2 Hq2). lia. }
    split; [done|]. split; [done|]. intros _.
    exists len1, c1, c2. by rewrite <-Hperm in Hk2.
Qed.

Lemma resolve_conflicts_order_witness :
  true = true
  ∧ (true = false →
     {| heap := heap Sample.node; chain := map Fetched Sample.chain_alice;
        current_transactions := 1 |} = Sample.node
     ∧ {| heap := heap Sample.node; chain := map Fetched Sample.chain_bob;
          current_transactions := 1 |} = Sample.node)
  ∧ (true = true →
     ∃ len c1 c2,
       Answer len c1 ∈ [Answer 2 Sample.chain_alice; Answer 2 Sample.chain_bob]
       ∧ Answer len c2 ∈ [Answer 2 Sample.chain_alice; Answer 2 Sample.chain_bob]
       ∧ valid_chain c1 = Ok true ∧ valid_chain c2 = Ok true
       ∧ chain_view
           {| heap := heap Sample.node; chain := map Fetched Sample.chain_alice;
              current_transactions := 1 |} = c1
       ∧ chain_view
           {| heap := heap Sample.node; chain := map Fetched Sample.chain_bob;
              current_transactions := 1 |} = c2).
Proof.
  apply (resolve_conflicts_order Sample.node
           [Answer 2 Sample.chain_alice; Answer 2 Sample.chain_bob]
           [Answer 2 Sample.chain_bob; Answer 2 Sample.chain_alice]).
  - apply Permutation_swap.
  - vm_compute. reflexivity.
  - vm_compute. reflexivity.
Defined.

Lemma length_chain_view self : length (chain_view self) = length (chain self).
Proof. apply length_map. Qed.

Lemma resolve_conflicts_longer self replies self' replaced :
  Forall reports_length replies →
  resolve_conflicts self replies = Ok (self', replaced) →
  length (chain self) ≤ length (chain self')
  ∧ (replaced = true →
     length (chain self) < length (chain self')
     ∧ ∀ len c, Answer len c ∈ replies → valid_chain c = Ok true →
         length c ≤ length (chain self')).
Proof.
  intros Hhonest Hres. rewrite Forall_forall in Hhonest.
  destruct (resolve_conflicts_returns _ _ _ _ Hres)
    as [(-> & -> & _)
       |(-> & _ & _ & k & len & c & Hk & Hview & [Hlt Hv] & Hmax & _)];
    [by split|].
  apply list_elem_of_lookup_2 in Hk. pose proof (Hhonest _ Hk) as Hlen.
  cbn [reports_length] in Hlen.
  rewrite <-(length_chain_view self'), Hview.
  split; [lia|]. intros _. split; [lia|]. intros len' c' Hin Hv'.
  pose proof (Hhonest _ Hin) as Hlen'. cbn [reports_length] in Hlen'.
  specialize (Hmax _ _ Hin Hv'). lia.
Qed.

(** X10.  When every answer reports the length of the chain it carries,
    as the [/chain] route does, the call never shortens the local chain:
    a replacement makes it strictly longer, and no accepted chain among
    the answers is longer than the one adopted. *)
Theorem resolve_conflicts_grows self replies self' replaced :
  Forall reports_length replies →
  resolve_conflicts self replies = Ok (self', replaced) →
  length (chain self) ≤ length (chain self')
  ∧ (replaced = true →
     length (chain self) < length (chain self')
     ∧ ∀ len c, Answer len c ∈ replies → valid_chain c = Ok true →
         length c ≤ length (chain self')).
Proof. apply resolve_conflicts_longer. Qed.

Lemma resolve_conflicts_grows_witness :
  length (chain Sample.node)
  ≤ length (chain {| heap := heap Sample.node;
                     chain := map Fetched Sample.chain_long;
                     current_transactions := 1 |})
  ∧ (true = true →
     length (chain Sample.node)
     < length (chain {| heap := heap Sample.node;
                        chain := map Fetched Sample.chain_long;
                        current_transactions := 1 |})
     ∧ ∀ len c,
         Answer len c ∈ [Answer 2 Sample.chain_alice; Unreachable;
                         Answer 3 Sample.chain_long] →
         valid_chain c = Ok true →
         length c ≤ length (chain {| heap := heap Sample.node;
                                     chain := map Fetched Sample.chain_long;
                                     current_transactions := 1 |})).
Proof.
  apply (resolve_conflicts_grows Sample.node
           [Answer 2 Sample.chain_alice; Unreachable; Answer 3 Sample.chain_long]).
  - repeat constructor.
  - vm_compute. reflexivity.
Defined.

(** Scanning again from a bound no accepted answer exceeds changes
    nothing and raises nothing. *)
Lemma scan_again replies :
  ∀ m nc res m' nc',
    scan replies m nc = Ok res →
    (m ≤ m')%Z →
    (∀ len c, Answer len c ∈ replies → valid_chain c = Ok true → (len ≤ m')%Z) →
    scan replies m' nc' = Ok nc'.
Proof.
  induction replies as [|[|len c] replies IH]; intros m nc res m' nc' Hscan Hle Hmax;
    [done|..]; cbn [scan] in *.
  - eapply IH; [exact Hscan|done|]. intros ?? Hin. apply Hmax. by right.
  - assert (Hrest : ∀ len' c', Answer len' c' ∈ replies →
                      valid_chain c' = Ok true → (len' ≤ m')%Z).
    { intros ?? Hin. apply Hmax. by right. }
    destruct (m' <? len)%Z eqn:Hm'.
    + apply Z.ltb_lt in Hm'.
      replace (m <? len)%Z with true in Hscan by (symmetry; apply Z.ltb_lt; lia).
      destruct (valid_chain c) as [[|]|] eqn:Hv; cbn [mbind result_bind] in *;
        [|by eapply IH|done].
      specialize (Hmax len c (list_elem_of_here _ _) Hv). lia.
    + apply Z.ltb_ge in Hm'. destruct (m <? len)%Z eqn:Hm; [|by eapply IH].
      destruct (valid_chain c) as [[|]|] eqn:Hv; cbn [mbind result_bind] in *;
        [|by eapply IH|done].
      eapply IH; [exact Hscan|lia|done].
Qed.

(** X11.  With answers that report their true length, resolving twice
    against the same answers does nothing the second time: the call
    returns false and leaves the ledger as the first call left it. *)
Theorem resolve_conflicts_settles self replies self' replaced :
  Forall reports_length replies →
  resolve_conflicts self replies = Ok (self', replaced) →
  resolve_conflicts self' replies = Ok (self', false).
Proof.
  intros Hhonest Hres.
  destruct (resolve_conflicts_longer _ _ _ _ Hhonest Hres) as [_ Hgrow].
  pose proof Hres as Hres'.
  unfold resolve_conflicts in Hres'. apply bind_Ok in Hres' as (res & Hscan & _).
  destruct (resolve_conflicts_returns _ _ _ _ Hres)
    as [(-> & -> & _)|(-> & _ & _ & _)]; [done|].
  destruct (Hgrow eq_refl) as [Hlt Hmax].
  unfold resolve_conflicts.
  rewrite (scan_again replies _ _ _ (Z.of_nat (length (chain self'))) None Hscan);
    [done|lia|].
  rewrite Forall_forall in Hhonest.
  intros len c Hin Hv. pose proof (Hhonest _ Hin) as Hlen.
  cbn [reports_length] in Hlen. specialize (Hmax _ _ Hin Hv). lia.
Qed.

Lemma resolve_conflicts_settles_witness :
  resolve_conflicts
    {| heap := heap Sample.node; chain := map Fetched Sample.chain_long;
       current_transactions := 1 |}
    [Answer 2 Sample.chain_alice; Unreachable; Answer 3 Sample.chain_long]
  = Ok ({| heap := heap Sample.node; chain := map Fetched Sample.chain_long;
           current_transactions := 1 |}, false).
Proof.
  apply (resolve_conflicts_settles Sample.node _ _ true).
  - repeat constructor.
  - vm_compute. reflexivity.
Defined.

(** ** The node as it is served *)

Lemma chain_view_lookup self i :
  chain_view self !! i = view (heap self) <$> chain self !! i.
Proof.
  unfold chain_view. generalize (chain self). intros l. revert i.
  induction l as [|b l IH]; intros [|i]; simpl; auto.
Qed.

(** The ways a [/mine] call can end. *)
Lemma mine_inv fuel self now node_identifier self' r :
  mine fuel self now node_identifier = Some (self', r) →
  (self' = self ∧ ∃ e, r = Raise e)
  ∨ (self' = (new_transaction self (py "0") node_identifier (JInt 1)).1
     ∧ ∃ e, r = Raise e)
  ∨ (∃ l last_proof p b,
       last (chain self) = Some l
       ∧ dict_get (view (heap self) l) (py "proof") = Some last_proof
       ∧ proof_of_work_search fuel (replicate DIFFICULTY 48%N) last_proof
           (hash (view (heap self) l)) 0 = Some (Ok p)
       ∧ new_block (new_transaction self (py "0") node_identifier (JInt 1)).1
           now p (Some (hash (view (heap self) l))) = Ok (self', b)
       ∧ r = Ok b).
Proof.
  unfold mine. destruct (last (chain self)) as [l|] eqn:Hl;
    [|intros [= <- <-]; left; eauto].
  unfold getitem.
  destruct (dict_get (view (heap self) l) (py "proof")) as [lp|] eqn:Hlp;
    [|intros [= <- <-]; left; eauto].
  destruct (proof_of_work_search _ _ _ _ _) as [[p|e]|] eqn:Hsearch;
    [|intros [= <- <-]; left; eauto|done].
  cbv zeta.
  destruct ((new_transaction self (py "0") node_identifier (JInt 1)).2)
    as [idx|e]; [|intros [= <- <-]; right; left; eauto].
  destruct (new_block _ now p _) as [[self2 b]|e] eqn:Hnb;
    [|intros [= <- <-]; right; left; eauto].
  cbn [fst snd]. intros [= <- <-]. right; right. by exists l, lp, p, b.
Qed.

Lemma served_ledger_ok self : served self → ledger_ok self.
Proof.
  induction 1 as [now self Hinit|self s r a _ IH
                 |self fuel now ident self' r _ IH Hmine
                 |self replies self' replaced _ IH Hres].
  - by eapply ledger_ok_init.
  - by apply ledger_ok_new_transaction.
  - destruct (mine_inv _ _ _ _ _ _ Hmine)
      as [[-> _]|[[-> _]|(l & lp & p & b & _ & _ & _ & Hnb & _)]].
    + done.
    + by apply ledger_ok_new_transaction.
    + eapply ledger_ok_new_block; [|exact Hnb].
      by apply ledger_ok_new_transaction.
  - by eapply ledger_ok_resolve_conflicts.
Qed.

Lemma served_chain_nonempty self : served self → chain self ≠ [].
Proof.
  induction 1 as [now self Hinit|self s r a _ IH
                 |self fuel now ident self' r _ IH Hmine
                 |self replies self' replaced _ IH Hres].
  - by injection Hinit as <-.
  - done.
  - destruct (mine_inv _ _ _ _ _ _ Hmine)
      as [[-> _]|[[-> _]|(l & lp & p & b & _ & _ & _ & Hnb & _)]]; [done..|].
    apply new_block_inv in Hnb as (h & _ & -> & _). cbn [chain].
    intros Hnil. by apply app_eq_nil in Hnil as [_ ?].
  - destruct (resolve_conflicts_returns _ _ _ _ Hres)
      as [(_ & -> & _)|(_ & _ & _ & k & len & c & _ & Hview & [_ Hv] & _)];
      [done|].
    intros Hnil. unfold chain_view in Hview. rewrite Hnil in Hview.
    by rewrite <-Hview in Hv.
Qed.

(** X12.  However a node got where it is (transactions, mining, adopted
    chains), its chain is never empty, so [last_block] never fails, and
    [new_block] returns whatever proof and previous hash it is given. *)
Theorem served_never_empty self :
  served self →
  chain self ≠ []
  ∧ ∀ now proof previous_hash,
      ∃ self' b, new_block self now proof previous_hash = Ok (self', b).
Proof.
  intros Hne%served_chain_nonempty. split; [done|].
  intros now proof ph. destruct (new_block_Ok self now proof ph Hne) as [h ->].
  eauto.
Qed.

Lemma sample_miner_served : served Sample.miner_mined.
Proof.
  eapply (served_mine Sample.miner 20 (Sample.clock 17621911502) Sample.miner_id);
    [|vm_compute; reflexivity].
  apply (served_init (Sample.clock 17621910969)). reflexivity.
Qed.

Lemma served_never_empty_witness :
  chain Sample.miner_mined ≠ []
  ∧ ∀ now proof previous_hash,
      ∃ self' b, new_block Sample.miner_mined now proof previous_hash = Ok (self', b).
Proof.
  apply (served_never_empty Sample.miner_mined).
  eapply (served_mine Sample.miner 20 (Sample.clock 17621911502) Sample.miner_id);
    [|vm_compute; reflexivity].
  apply (served_init (Sample.clock 17621910969)). reflexivity.
Defined.

Lemma view_new_transaction self sender recipient amount b :
  ledger_ok self → b ∈ chain self →
  view (heap (new_transaction self sender recipient amount).1) b
  = view (heap self) b.
Proof.
  intros [_ _ Hpriv] Hin. apply view_ext. intros a Ha. cbn [new_transaction fst heap].
  apply list_lookup_alter_ne. intros Heq. apply (Hpriv b Hin). by rewrite Heq.
Qed.

(** Appending a block that names the hash of the last one keeps a chain
    linked. *)
Lemma linked_new_block self now proof previous_hash self' b :
  ledger_ok self →
  linked (chain_view self) →
  links_to_last self previous_hash →
  new_block self now proof previous_hash = Ok (self', b) →
  linked (chain_view self').
Proof.
  intros Hok Hlinked Hlinks Hnb.
  destruct (chain_view_new_block _ _ _ _ _ _ Hok Hnb) as (Hview & _ & _).
  destruct (new_block_inv _ _ _ _ _ _ Hnb) as (h & -> & -> & Hh).
  rewrite Hview. intros i prev cur Hprev Hcur.
  destruct (decide (S i < length (chain_view self))) as [Hlt|Hge].
  { rewrite lookup_app_l in Hprev, Hcur by lia. by eapply Hlinked. }
  apply lookup_lt_Some in Hcur as Hi. rewrite length_app in Hi; simpl in Hi.
  assert (S i = length (chain_view self)) as Hi' by lia.
  rewrite lookup_app_l in Hprev by lia.
  rewrite lookup_app_r, Hi', Nat.sub_diag in Hcur by lia. simpl in Hcur.
  injection Hcur as <-.
  change (Some (JStr h) = Some (JStr (hash prev))). do 2 f_equal.
  assert (Hlast : last (chain_view self) = Some prev).
  { rewrite last_lookup. rewrite <-Hi'. done. }
  unfold chain_view in Hlast. rewrite last_map in Hlast.
  destruct (last (chain self)) as [l|] eqn:Hl; [|done].
  simpl in Hlast. injection Hlast as <-.
  destruct previous_hash as [[|c s]|]; simpl in Hlinks.
  - destruct Hh as (l' & Hl' & ->). by simplify_eq.
  - destruct Hlinks as (l' & Hl' & Heq). simplify_eq. by rewrite Heq.
  - destruct Hh as (l' & Hl' & ->). by simplify_eq.
Qed.

(** X13.  The chain of a node is linked in every state it can be in: the
    [/mine] route appends blocks that name the hash of the block before
    them, submitted transactions touch no block, and only chains the
    validator accepts are adopted. *)
Theorem served_chain_linked self : served self → linked (chain_view self).
Proof.
  induction 1 as [now self Hinit|self s r a Hserved IH
                 |self fuel now ident self' r Hserved IH Hmine
                 |self replies self' replaced Hserved IH Hres].
  - injection Hinit as <-. by intros [|i] prev cur.
  - rewrite chain_view_new_transaction by by apply served_ledger_ok. done.
  - pose proof (served_ledger_ok _ Hserved) as Hok.
    destruct (mine_inv _ _ _ _ _ _ Hmine)
      as [[-> _]|[[-> _]|(l & lp & p & b & Hl & _ & _ & Hnb & _)]].
    + done.
    + by rewrite chain_view_new_transaction.
    + (* the hash was taken before the reward was recorded *)
      eapply linked_new_block; [| | |exact Hnb].
      * by apply ledger_ok_new_transaction.
      * by rewrite chain_view_new_transaction.
      * unfold links_to_last.
        destruct (hash (view (heap self) l)) as [|c s] eqn:Hhash; [exact I|].
        exists l. split; [exact Hl|].
        rewrite view_new_transaction; [by rewrite Hhash|done|].
        apply last_Some in Hl as [pre ->]. apply elem_of_app. right. by left.
  - destruct (resolve_conflicts_returns _ _ _ _ Hres)
      as [(_ & -> & _)|(_ & _ & _ & k & len & c & _ & Hview & [_ Hv] & _)];
      [done|].
    rewrite Hview. by apply valid_chain_is_linked.
Qed.

Lemma served_chain_linked_witness :
  ∃ prev cur,
    chain_view Sample.miner_mined !! 0 = Some prev
    ∧ chain_view Sample.miner_mined !! 1 = Some cur
    ∧ dict_get cur (py "previous_hash") = Some (JStr (hash prev)).
Proof.
  eexists _, _. split; [vm_compute; reflexivity|].
  split; [vm_compute; reflexivity|].
  apply (served_chain_linked Sample.miner_mined) with (i := 0);
    [|vm_compute; reflexivity..].
  eapply (served_mine Sample.miner 20 (Sample.clock 17621911502) Sample.miner_id);
    [|vm_compute; reflexivity].
  apply (served_init (Sample.clock 17621910969)). reflexivity.
Defined.

(** X14.  On any ledger a node can be in, submitting a transaction
    changes no block of the chain and adds exactly that transaction at the
    end of the pool, even when the call goes on to raise. *)
Theorem new_transaction_frame self sender recipient amount :
  served self →
  chain_view (new_transaction self sender recipient amount).1 = chain_view self
  ∧ pool (new_transaction self sender recipient amount).1
    = pool self ++ [transaction sender recipient amount].
Proof.
  intros Hok%served_ledger_ok. split.
  - by apply chain_view_new_transaction.
  - apply pool_new_transaction, (pool_allocated _ Hok).
Qed.

Lemma new_transaction_frame_witness :
  chain_view (new_transaction Sample.miner_mined (py "a") (py "b") (JInt 3)).1
  = chain_view Sample.miner_mined
  ∧ pool (new_transaction Sample.miner_mined (py "a") (py "b") (JInt 3)).1
    = pool Sample.miner_mined ++ [transaction (py "a") (py "b") (JInt 3)].
Proof.
  apply (new_transaction_frame Sample.miner_mined).
  eapply (served_mine Sample.miner 20 (Sample.clock 17621911502) Sample.miner_id);
    [|vm_compute; reflexivity].
  apply (served_init (Sample.clock 17621910969)). reflexivity.
Defined.

(** X15.  On any ledger a node can be in, [new_block] appends exactly one
    block, numbered one more than the length of the chain, that carries
    exactly the pending pool, in order; the blocks already in the chain
    are unchanged and the pool is left empty. *)
Theorem new_block_frame self now proof previous_hash self' b :
  served self →
  new_block self now proof previous_hash = Ok (self', b) →
  chain_view self' = chain_view self ++ [view (heap self') b]
  ∧ dict_get (view (heap self') b) (py "index")
    = Some (JInt (Z.of_nat (length (chain self)) + 1))
  ∧ block_transactions (view (heap self') b) = pool self
  ∧ pool self' = [].
Proof.
  intros Hok%served_ledger_ok Hnb.
  destruct (chain_view_new_block _ _ _ _ _ _ Hok Hnb) as (Hview & Htxns & Hpool).
  split; [done|]. split; [|done].
  by apply new_block_inv in Hnb as (h & -> & -> & _).
Qed.

Lemma new_block_frame_witness :
  ∃ self' b,
    new_block (new_transaction Sample.node (py "a") (py "b") (JInt 3)).1
      (Sample.clock 17621907900) 5 None = Ok (self', b)
    ∧ chain_view self'
      = chain_view (new_transaction Sample.node (py "a") (py "b") (JInt 3)).1
        ++ [view (heap self') b]
    ∧ dict_get (view (heap self') b) (py "index") = Some (JInt 2)
    ∧ block_transactions (view (heap self') b)
      = [transaction (py "a") (py "b") (JInt 3)]
    ∧ pool self' = [].
Proof.
  eexists _, _. split; [reflexivity|].
  apply (new_block_frame (new_transaction Sample.node (py "a") (py "b") (JInt 3)).1
           (Sample.clock 17621907900) 5 None);
    [|reflexivity].
  apply (served_transaction Sample.node).
  apply (served_init (Sample.clock 17621907305)). reflexivity.
Defined.

(** ** Block numbers *)

Lemma numbered_step self c :
  is_local c = true → numbered self → numbered (step self c).
Proof.
  intros Hc Hnum. destruct c as [s r a|now proof ph|replies]; [done| |done].
  cbn [step]. destruct (new_block self now proof ph) as [[self' b]|] eqn:Hnb; [|done].
  apply new_block_inv in Hnb as (h & -> & -> & _). cbn [fst].
  intros i b Hi. cbn [chain] in Hi.
  destruct (decide (i < length (chain self))) as [Hlt|Hge].
  - rewrite lookup_app_l in Hi by done. by apply Hnum.
  - apply lookup_lt_Some in Hi as Hlen. rewrite length_app in Hlen; simpl in Hlen.
    assert (i = length (chain self)) as -> by lia.
    rewrite lookup_app_r, Nat.sub_diag in Hi by lia. simpl in Hi.
    injection Hi as <-. eauto.
Qed.

Lemma numbered_run calls :
  Forall (λ c, is_local c = true) calls →
  ∀ self, ledger_ok self → numbered self → chain self ≠ [] →
    ledger_ok (run self calls) ∧ numbered (run self calls)
    ∧ chain (run self calls) ≠ [].
Proof.
  induction 1 as [|c calls Hc _ IH]; intros self Hok Hnum Hne; [done|].
  change (run self (c :: calls)) with (run (step self c) calls).
  apply IH; [by apply ledger_ok_step|by apply numbered_step|].
  destruct c as [s r a|now proof ph|replies]; [done| |done].
  cbn [step]. destruct (new_block self now proof ph) as [[self' b]|] eqn:Hnb; [|done].
  apply new_block_inv in Hnb as (h & -> & -> & _). cbn [fst chain].
  intros Hnil. by apply app_eq_nil in Hnil as [_ ?].
Qed.

Lemma numbered_init now self : Blockchain_init now = Ok self → numbered self.
Proof.
  intros [= <-]. intros [|i] b Hi; [|done]. cbn in Hi. injection Hi as <-. eauto.
Qed.

(** X16.  As long as no chain has been adopted from a peer, the blocks
    are numbered from 1 without gaps: the block at position [i] of the
    chain carries index [i + 1]. *)
Theorem index_contiguous now self0 calls :
  Blockchain_init now = Ok self0 →
  Forall (λ c, is_local c = true) calls →
  ∀ (i : nat) b,
    chain_view (run self0 calls) !! i = Some b →
    dict_get b (py "index") = Some (JInt (Z.of_nat i + 1)).
Proof.
  intros Hinit Hlocal i b Hi.
  destruct (numbered_run calls Hlocal self0) as (_ & Hnum & _).
  { by eapply ledger_ok_init. }
  { by eapply numbered_init. }
  { by injection Hinit as <-. }
  rewrite chain_view_lookup in Hi.
  destruct (chain (run self0 calls) !! i) as [blk|] eqn:Hblk; [|done].
  destruct (Hnum _ _ Hblk) as (ts & a & p & h & ->).
  cbn in Hi. by injection Hi as <-.
Qed.

Lemma index_contiguous_witness :
  ∃ b,
    chain_view (run Sample.node
                  [MineBlock (Sample.clock 17621907900) 5 None;
                   RecordTransaction (py "a") (py "b") (JInt 3);
                   MineBlock (Sample.clock 17621908500) 9 (Some (py "x"))]) !! 2
    = Some b
    ∧ dict_get b (py "index") = Some (JInt 3).
Proof.
  eexists. split; [vm_compute; reflexivity|].
  apply (index_contiguous (Sample.clock 17621907305) Sample.node
           [MineBlock (Sample.clock 17621907900) 5 None;
            RecordTransaction (py "a") (py "b") (JInt 3);
            MineBlock (Sample.clock 17621908500) 9 (Some (py "x"))] eq_refl)
    with (i := 2).
  - repeat constructor.
  - vm_compute. reflexivity.
Defined.

(** X17.  As long as no chain has been adopted, [new_transaction] returns
    what its docstring promises, the index of the block that will hold the
    transaction: whatever block [new_block] forges next carries that index
    and has the transaction last in its sequence. *)
Theorem new_transaction_index now self0 calls sender recipient amount :
  Blockchain_init now = Ok self0 →
  Forall (λ c, is_local c = true) calls →
  let self := run self0 calls in
  let r := new_transaction self sender recipient amount in
  r.2 = Ok (Z.of_nat (length (chain self)) + 1)%Z
  ∧ ∀ now' proof previous_hash self' b,
      new_block r.1 now' proof previous_hash = Ok (self', b) →
      dict_get (view (heap self') b) (py "index")
      = Some (JInt (Z.of_nat (length (chain self)) + 1))
      ∧ last (block_transactions (view (heap self') b))
        = Some (transaction sender recipient amount).
Proof.
  intros Hinit Hlocal self r.
  destruct (numbered_run calls Hlocal self0) as (Hok & Hnum & Hne).
  { by eapply ledger_ok_init. }
  { by eapply numbered_init. }
  { by injection Hinit as <-. }
  fold self in Hok, Hnum, Hne. split.
  - unfold r. cbn [new_transaction snd chain].
    destruct (last (chain self)) as [blk|] eqn:Hlast;
      [|by apply last_None in Hlast].
    rewrite last_lookup in Hlast.
    destruct (Hnum _ _ Hlast) as (ts & a & p & h & ->).
    change (Ok (Z.of_nat (Nat.pred (length (chain self))) + 1 + 1)%Z
            = Ok (Z.of_nat (length (chain self)) + 1)%Z).
    f_equal. destruct (chain self); [done|]. cbn [length Nat.pred]. lia.
  - intros now' proof ph self' b Hnb.
    pose proof (ledger_ok_new_transaction self sender recipient amount Hok) as Hok1.
    destruct (chain_view_new_block _ _ _ _ _ _ Hok1 Hnb) as (_ & Htxns & _).
    rewrite Htxns. unfold r.
    rewrite pool_new_transaction by apply (pool_allocated _ Hok).
    rewrite last_snoc. split; [|done].
    by apply new_block_inv in Hnb as (h & -> & -> & _).
Qed.

Lemma new_transaction_index_witness :
  let self := run Sample.node [MineBlock (Sample.clock 17621907900) 5 None] in
  let r := new_transaction self (py "a") (py "b") (JInt 3) in
  r.2 = Ok (Z.of_nat (length (chain self)) + 1)%Z
  ∧ ∀ now' proof previous_hash self' b,
      new_block r.1 now' proof previous_hash = Ok (self', b) →
      dict_get (view (heap self') b) (py "index")
      = Some (JInt (Z.of_nat (length (chain self)) + 1))
      ∧ last (block_transactions (view (heap self') b))
        = Some (transaction (py "a") (py "b") (JInt 3)).
Proof.
  apply (new_transaction_index (Sample.clock 17621907305) Sample.node
           [MineBlock (Sample.clock 17621907900) 5 None]).
  - reflexivity.
  - repeat constructor.
Defined.

(** ** Mining *)

Lemma valid_proof_default last_proof proof last_hash :
  valid_proof last_proof proof last_hash None
  = valid_proof last_proof proof last_hash (Some (replicate DIFFICULTY 48%N)).
Proof. reflexivity. Qed.

Lemma mine_forged fuel self now node_identifier self' b :
  ledger_ok self →
  mine fuel self now node_identifier = Some (self', Ok b) →
  ∃ l last_proof p,
    last (chain self) = Some l
    ∧ dict_get (view (heap self) l) (py "proof") = Some last_proof
    ∧ proof_of_work_search fuel (replicate DIFFICULTY 48%N) last_proof
        (hash (view (heap self) l)) 0 = Some (Ok p)
    ∧ b = Forged (Z.of_nat (length (chain self)) + 1) now
                 (current_transactions self) p (hash (view (heap self) l))
    ∧ chain_view self' = chain_view self ++ [view (heap self') b]
    ∧ block_transactions (view (heap self') b)
      = pool self ++ [transaction (py "0") node_identifier (JInt 1)]
    ∧ pool self' = [].
Proof.
  intros Hok Hmine.
  destruct (mine_inv _ _ _ _ _ _ Hmine)
    as [[_ [e [=]]]|[[_ [e [=]]]|(l & lp & p & b' & Hl & Hlp & Hsearch & Hnb & [= <-])]].
  pose proof (ledger_ok_new_transaction self (py "0") node_identifier (JInt 1) Hok)
    as Hok1.
  destruct (chain_view_new_block _ _ _ _ _ _ Hok1 Hnb) as (Hview & Htxns & Hpool).
  rewrite chain_view_new_transaction in Hview by done.
  rewrite pool_new_transaction in Htxns by apply (pool_allocated _ Hok).
  exists l, lp, p. split; [done|]. split; [done|]. split; [done|].
  split; [|done].
  destruct (new_block_inv _ _ _ _ _ _ Hnb) as (h & Hb & _ & Hh).
  assert (Hheq : h = hash (view (heap self) l)).
  { destruct (hash (view (heap self) l)) as [|c s] eqn:Hhash; [|exact Hh].
    destruct Hh as (l' & Hl' & ->). cbn [new_transaction fst chain] in Hl'.
    rewrite Hl in Hl'. injection Hl' as <-.
    rewrite (view_new_transaction self (py "0") node_identifier (JInt 1) l Hok);
      [exact Hhash|].
    apply last_Some in Hl as [pre ->]. apply elem_of_app. right. by left. }
  by rewrite Hb, Hheq.
Qed.

(** X18.  A [/mine] call that forges a block appends exactly one block:
    numbered one past the chain, linked to the hash of the block that was
    last, carrying the pending transactions followed by the reward for
    this node, with the least proof that passes [valid_proof] against the
    previous proof and that hash; the pool is left empty. *)
Theorem mine_forges fuel self now node_identifier self' b :
  served self →
  mine fuel self now node_identifier = Some (self', Ok b) →
  ∃ l last_proof p,
    last (chain self) = Some l
    ∧ dict_get (view (heap self) l) (py "proof") = Some last_proof
    ∧ b = Forged (Z.of_nat (length (chain self)) + 1) now
                 (current_transactions self) p (hash (view (heap self) l))
    ∧ chain_view self' = chain_view self ++ [view (heap self') b]
    ∧ block_transactions (view (heap self') b)
      = pool self ++ [transaction (py "0") node_identifier (JInt 1)]
    ∧ pool self' = []
    ∧ valid_proof last_proof (JInt p) (JStr (hash (view (heap self) l))) None
      = Ok true
    ∧ ∀ q, (0 ≤ q < p)%Z →
        valid_proof last_proof (JInt q) (JStr (hash (view (heap self) l))) None
        = Ok false.
Proof.
  intros Hok%served_ledger_ok Hmine.
  destruct (mine_forged _ _ _ _ _ _ Hok Hmine)
    as (l & lp & p & Hl & Hlp & Hsearch & Hb & Hview & Htxns & Hpool).
  destruct (proof_of_work_search_sound _ _ _ _ _ _ Hsearch) as (_ & Hvalid & Hmin).
  exists l, lp, p. rewrite valid_proof_default.
  do 6 (split; [done|]). split; [done|].
  intros q Hq. rewrite valid_proof_default. by apply Hmin.
Qed.

Lemma mine_forges_witness :
  ∃ l last_proof p,
    last (chain Sample.miner) = Some l
    ∧ dict_get (view (heap Sample.miner) l) (py "proof") = Some last_proof
    ∧ Forged 2 (Sample.clock 17621911502) 1 16
        (hash (view (heap Sample.miner)
                 (Forged 1 (Sample.clock 17621910969) 0 100 (py "1"))))
      = Forged (Z.of_nat (length (chain Sample.miner)) + 1)
          (Sample.clock 17621911502) (current_transactions Sample.miner) p
          (hash (view (heap Sample.miner) l))
    ∧ chain_view Sample.miner_mined
      = chain_view Sample.miner
        ++ [view (heap Sample.miner_mined)
              (Forged 2 (Sample.clock 17621911502) 1 16
                 (hash (view (heap Sample.miner)
                          (Forged 1 (Sample.clock 17621910969) 0 100 (py "1")))))]
    ∧ block_transactions
        (view (heap Sample.miner_mined)
           (Forged 2 (Sample.clock 17621911502) 1 16
              (hash (view (heap Sample.miner)
                       (Forged 1 (Sample.clock 17621910969) 0 100 (py "1"))))))
      = pool Sample.miner ++ [transaction (py "0") Sample.miner_id (JInt 1)]
    ∧ pool Sample.miner_mined = []
    ∧ valid_proof last_proof (JInt p) (JStr (hash (view (heap Sample.miner) l))) None
      = Ok true
    ∧ ∀ q, (0 ≤ q < p)%Z →
        valid_proof last_proof (JInt q) (JStr (hash (view (heap Sample.miner) l))) None
        = Ok false.
Proof.
  apply (mine_forges 20 Sample.miner (Sample.clock 17621911502) Sample.miner_id).
  - apply (served_init (Sample.clock 17621910969)). reflexivity.
  - vm_compute. reflexivity.
Defined.

Lemma link_check_forged h h' prev index ts a p :
  link_check prev (view h' (Forged index ts a p (hash prev))) = Ok true
  ∧ work_check prev (view h' (Forged index ts a p h))
    = (last_proof ← getitem prev (py "proof");
       valid_proof last_proof (JInt p) (reference_hash prev) None).
Proof.
  split.
  - unfold link_check.
    change (getitem (view h' (Forged index ts a p (hash prev))) (py "previous_hash"))
      with (Ok (JStr (hash prev)) : result json).
    cbn [mbind result_bind ne_str]. unfold str_eqb.
    by rewrite bool_decide_eq_true_2.
  - unfold work_check.
    by change (getitem (view h' (Forged index ts a p h)) (py "proof"))
      with (Ok (JInt p) : result json).
Qed.

(** X19.  What the validator makes of a block the node has just mined:
    the chain with the new block is accepted exactly when the chain before
    was and the new proof passes [valid_proof] against the reference the
    validator uses, the last block's own previous hash when it has one,
    which is not the hash the miner solved against. *)
Theorem mine_validated fuel self now node_identifier self' b :
  served self →
  mine fuel self now node_identifier = Some (self', Ok b) →
  ∃ l last_proof p,
    last (chain_view self) = Some l
    ∧ dict_get l (py "proof") = Some last_proof
    ∧ valid_proof last_proof (JInt p) (JStr (hash l)) None = Ok true
    ∧ (valid_chain (chain_view self') = Ok true
       ↔ valid_chain (chain_view self) = Ok true
         ∧ valid_proof last_proof (JInt p) (reference_hash l) None = Ok true).
Proof.
  intros Hok%served_ledger_ok Hmine.
  destruct (mine_forged _ _ _ _ _ _ Hok Hmine)
    as (l & lp & p & Hl & Hlp & Hsearch & -> & Hview & _ & _).
  destruct (proof_of_work_search_sound _ _ _ _ _ _ Hsearch) as (_ & Hvalid & _).
  exists (view (heap self) l), lp, p.
  split; [unfold chain_view; by rewrite last_map, Hl|].
  split; [done|]. split; [by rewrite valid_proof_default|].
  rewrite Hview.
  assert (∃ pre, chain_view self = pre ++ [view (heap self) l]) as [pre Hpre].
  { apply last_Some. unfold chain_view. by rewrite last_map, Hl. }
  rewrite Hpre, <-(assoc_L (++)). cbn [app].
  rewrite valid_chain_snoc. unfold pair_passes.
  destruct (link_check_forged (hash (view (heap self) l)) (heap self')
              (view (heap self) l) (Z.of_nat (length (chain self)) + 1) now
              (current_transactions self) p) as [-> ->].
  unfold getitem. rewrite Hlp. cbn [mbind result_bind]. intuition.
Qed.

Lemma mine_validated_witness :
  ∃ l last_proof p,
    last (chain_view Sample.miner) = Some l
    ∧ dict_get l (py "proof") = Some last_proof
    ∧ valid_proof last_proof (JInt p) (JStr (hash l)) None = Ok true
    ∧ (valid_chain (chain_view Sample.miner_mined) = Ok true
       ↔ valid_chain (chain_view Sample.miner) = Ok true
         ∧ valid_proof last_proof (JInt p) (reference_hash l) None = Ok true).
Proof.
  apply (mine_validated 20 Sample.miner (Sample.clock 17621911502) Sample.miner_id
           Sample.miner_mined
           (Forged 2 (Sample.clock 17621911502) 1 16
              (hash (view (heap Sample.miner)
                       (Forged 1 (Sample.clock 17621910969) 0 100 (py "1"))))));
    [|vm_compute; reflexivity].
  apply (served_init (Sample.clock 17621910969)). reflexivity.
Defined.

(** X20.  The node's own blocks need not pass its validator: a node that
    is constructed and mines one block through [/mine] can end with a
    chain that [valid_chain] rejects, because the proof was found against
    the hash of the genesis block and is checked against its previous
    hash "1". *)
Theorem mined_chain_rejected :
  ∃ now self fuel now' node_identifier self' b,
    Blockchain_init now = Ok self
    ∧ mine fuel self now' node_identifier = Some (self', Ok b)
    ∧ served self'
    ∧ valid_chain (chain_view self') = Ok false.
Proof.
  exists (Sample.clock 17621910969), Sample.miner, 20,
    (Sample.clock 17621911502), Sample.miner_id, Sample.miner_mined.
  eexists. split; [reflexivity|]. split; [vm_compute; reflexivity|].
  split; [apply sample_miner_served|]. vm_compute. reflexivity.
Qed.

(** X23.  A [/mine] call that raises never changes the chain.  It leaves
    the ledger as it was, or, when the exception comes from reading the
    index of the last block, with the reward transaction already added to
    the pool. *)
Theorem mine_raises fuel self now node_identifier self' e :
  served self →
  mine fuel self now node_identifier = Some (self', Raise e) →
  chain_view self' = chain_view self
  ∧ (self' = self
     ∨ pool self' = pool self ++ [transaction (py "0") node_identifier (JInt 1)]).
Proof.
  intros Hok%served_ledger_ok Hmine.
  destruct (mine_inv _ _ _ _ _ _ Hmine)
    as [[-> _]|[[-> _]|(l & lp & p & b & _ & _ & _ & _ & [=])]].
  - split; [done|by left].
  - split; [by apply chain_view_new_transaction|]. right.
    apply pool_new_transaction, (pool_allocated _ Hok).
Qed.

Lemma mine_raises_witness :
  chain_view (new_transaction Sample.node_stub (py "0") Sample.miner_id (JInt 1)).1
  = chain_view Sample.node_stub
  ∧ ((new_transaction Sample.node_stub (py "0") Sample.miner_id (JInt 1)).1
     = Sample.node_stub
     ∨ pool (new_transaction Sample.node_stub (py "0") Sample.miner_id (JInt 1)).1
       = pool Sample.node_stub ++ [transaction (py "0") Sample.miner_id (JInt 1)]).
Proof.
  apply (mine_raises 10 Sample.node_stub (Sample.clock 17621911502)
           Sample.miner_id _ KeyError).
  - apply (served_resolve Sample.node [Answer 2 [Sample.stub]] _ true);
      [|vm_compute; reflexivity].
    apply (served_init (Sample.clock 17621907305)). reflexivity.
  - vm_compute. reflexivity.
Defined.

(** ** The peer set *)


Lemma register_node_key urlparse nodes address :
  register_node urlparse nodes address
  = (λ k, {[ k ]} ∪ nodes) <$> node_key urlparse address.
Proof.
  unfold register_node, node_key.
  destruct (urlparse address) as [[[|c netloc] [|c' path]]|]; done.
Qed.




(** X22.  The registration route ends with the peers it had, plus the
    name of every address that can be registered; addresses that cannot
    are skipped without stopping the others, and neither the order nor
    repetitions of the addresses matter. *)
Theorem register_nodes_union urlparse nodes addresses :
  register_nodes urlparse nodes addresses
  = nodes ∪ list_to_set (omap (node_key urlparse) addresses).
Proof.
  unfold register_nodes. revert nodes.
  induction addresses as [|a addresses IH]; intros nodes.
  - cbn. by rewrite (right_id_L ∅ (∪)).
  - cbn [foldl]. rewrite IH, register_node_key.
    change (omap (node_key urlparse) (a :: addresses))
      with (match node_key urlparse a with
            | Some k => k :: omap (node_key urlparse) addresses
            | None => omap (node_key urlparse) addresses
            end).
    destruct (node_key urlparse a) as [k|]; cbn [fmap option_fmap option_map default from_option id];
      [|done].
    rewrite list_to_set_cons.
    by rewrite (comm_L (∪) {[ k ]} nodes), (assoc_L (∪)).
Qed.
